(** * py-sdf: the 3D signed distance field algebra of [sdf/d3.py]

    A shallow embedding of the parts of [sdf/d3.py] that the specification
    talks about, and the properties proved (or refuted) about them.

    Numbers.  numpy's float64 values are idealised: a finite float is a real
    number ([Fin r]) and arithmetic on finite values is exact real
    arithmetic.  The one non-finite value kept is [NaN], which numpy
    produces for [0/0], the square root of a negative number and an
    [arccos] outside [-1, 1]; it propagates through every operation, and
    every comparison with it is false.  Infinities are folded into [NaN];
    rounding, overflow and the sign of zero are not modelled.

    Arrays.  A point batch (an [n x 3] array) is a list of rows; a distance
    batch or a column is a list of numbers.  numpy's broadcasting of a
    3-vector or a scalar against a batch is written out as a [map]. *)

From stdpp Require Import gmap strings list.
From Stdlib Require Import Reals Lra Lia ZArith Machin RNsatz.
Import ListNotations.

(** ** Numbers *)

Module Num.
Local Open Scope R_scope.

Inductive num : Type :=
| Fin (r : R)
| NaN.

Definition lift1 (g : R -> R) (a : num) : num :=
  match a with Fin x => Fin (g x) | NaN => NaN end.

Definition lift2 (g : R -> R -> R) (a b : num) : num :=
  match a, b with Fin x, Fin y => Fin (g x y) | _, _ => NaN end.

Definition add : num -> num -> num := lift2 Rplus.
Definition sub : num -> num -> num := lift2 Rminus.
Definition mul : num -> num -> num := lift2 Rmult.
Definition neg : num -> num := lift1 Ropp.
Definition abs : num -> num := lift1 Rabs.
Definition sin : num -> num := lift1 Rtrigo_def.sin.
Definition cos : num -> num := lift1 Rtrigo_def.cos.

(** [np.maximum] and [np.minimum] propagate NaN. *)
Definition maximum : num -> num -> num := lift2 Rmax.
Definition minimum : num -> num -> num := lift2 Rmin.

(** [a / b]: numpy gives nan (or an infinity) when [b] is zero. *)
Definition div (a b : num) : num :=
  match a, b with
  | Fin x, Fin y => if Req_dec_T y 0 then NaN else Fin (x / y)
  | _, _ => NaN
  end.

(** [np.sqrt]: nan below zero. *)
Definition sqrt (a : num) : num :=
  match a with
  | Fin x => if Rlt_dec x 0 then NaN else Fin (R_sqrt.sqrt x)
  | NaN => NaN
  end.

(** [np.arccos]: nan outside [-1, 1]. *)
Definition arccos (a : num) : num :=
  match a with
  | Fin x => if Rle_dec (-1) x then
               if Rle_dec x 1 then Fin (acos x) else NaN
             else NaN
  | NaN => NaN
  end.

(** [np.hypot]. *)
Definition hypot : num -> num -> num :=
  lift2 (fun x y => R_sqrt.sqrt (x * x + y * y)).

(** [np.arctan2(y, x)]: the angle of the point [(x, y)], in [(-pi, pi]],
    and 0 at the origin. *)
Definition atan2 (y x : R) : R :=
  if Rlt_dec 0 x then atan (y / x)
  else if Rlt_dec x 0 then
         if Rle_dec 0 y then atan (y / x) + PI else atan (y / x) - PI
  else if Rlt_dec 0 y then PI / 2
  else if Rlt_dec y 0 then - (PI / 2)
  else 0.
Definition arctan2 : num -> num -> num := lift2 atan2.

(** [np.sign], and [np.clip(a, lo, hi)]. *)
Definition sign : num -> num :=
  lift1 (fun x => if Rlt_dec x 0 then -1 else if Rlt_dec 0 x then 1 else 0).
Definition clip (a lo hi : num) : num := minimum (maximum a lo) hi.

(** [a > b] and [a <= b] on scalars; false as soon as one side is nan. *)
Definition gtb (a b : num) : bool :=
  match a, b with
  | Fin x, Fin y => if Rlt_dec y x then true else false
  | _, _ => false
  end.
Definition leb (a b : num) : bool :=
  match a, b with
  | Fin x, Fin y => if Rle_dec x y then true else false
  | _, _ => false
  end.

(** [a == b] on scalars; false as soon as one side is nan. *)
Definition eqb (a b : num) : bool :=
  match a, b with
  | Fin x, Fin y => if Req_dec_T x y then true else false
  | _, _ => false
  end.

(** [a % b] with numpy's sign convention (the result has the sign of the
    divisor): [a - floor (a / b) * b]. *)
Definition fmod (x y : R) : R := x - IZR (Int_part (x / y)) * y.
Definition mod_ (a b : num) : num :=
  match a, b with
  | Fin x, Fin y => if Req_dec_T y 0 then NaN else Fin (fmod x y)
  | _, _ => NaN
  end.

End Num.

Export Num(num, Fin, NaN).
Coercion Fin : R >-> num.

Declare Scope num_scope.
Delimit Scope num_scope with num.
Bind Scope num_scope with num.
Infix "+" := Num.add : num_scope.
Infix "-" := Num.sub : num_scope.
Infix "*" := Num.mul : num_scope.
Infix "/" := Num.div : num_scope.
Notation "- a" := (Num.neg a) : num_scope.

(** The integers; [Z] below is the unit vector of the source. *)
Abbreviation int := BinNums.Z (only parsing).

(** ** Vectors, matrices and batches *)

Definition vec : Type := num * num * num.
Definition matrix : Type := vec * vec * vec.
Definition batch : Type := list vec.

(** A finite vector, and a batch of finite points. *)
Definition fvec (a : R * R * R) : vec := (Fin a.1.1, Fin a.1.2, Fin a.2).
Definition fbatch (ps : list (R * R * R)) : batch := map fvec ps.

Section Helpers.
Local Open Scope num_scope.

Definition ORIGIN : vec := (Fin 0, Fin 0, Fin 0).
Definition X : vec := (Fin 1, Fin 0, Fin 0).
Definition Y : vec := (Fin 0, Fin 1, Fin 0).
Definition Z : vec := (Fin 0, Fin 0, Fin 1).
Definition UP : vec := Z.

(** Elementwise operations on two 3-vectors, and a 3-vector against a
    scalar. *)
Definition vmap (g : num -> num) (a : vec) : vec :=
  let '(a0, a1, a2) := a in (g a0, g a1, g a2).
Definition vzip (g : num -> num -> num) (a b : vec) : vec :=
  let '(a0, a1, a2) := a in
  let '(b0, b1, b2) := b in (g a0 b0, g a1 b1, g a2 b2).
Definition vadd : vec -> vec -> vec := vzip Num.add.
Definition vsub : vec -> vec -> vec := vzip Num.sub.
Definition vmul : vec -> vec -> vec := vzip Num.mul.
Definition vdiv : vec -> vec -> vec := vzip Num.div.
Definition vabs : vec -> vec := vmap Num.abs.
Definition vscale (a : vec) (k : num) : vec := vmap (fun c => c * k) a.

(** [np.linalg.norm] of a 3-vector. *)
Definition norm (a : vec) : num :=
  let '(a0, a1, a2) := a in Num.sqrt (a0 * a0 + a1 * a1 + a2 * a2).

(** [np.dot] of two 3-vectors, [np.cross]. *)
Definition dot (a b : vec) : num :=
  let '(a0, a1, a2) := a in
  let '(b0, b1, b2) := b in a0 * b0 + a1 * b1 + a2 * b2.
Definition cross (a b : vec) : vec :=
  let '(a0, a1, a2) := a in
  let '(b0, b1, b2) := b in
  (a1 * b2 - a2 * b1, a2 * b0 - a0 * b2, a0 * b1 - a1 * b0).

(** [.T], [np.dot(p, m)] for one row [p], [np.matmul]. *)
Definition transpose (m : matrix) : matrix :=
  let '((m00, m01, m02), (m10, m11, m12), (m20, m21, m22)) := m in
  ((m00, m10, m20), (m01, m11, m21), (m02, m12, m22)).
Definition vecmat (p : vec) (m : matrix) : vec :=
  let '(r0, r1, r2) := transpose m in (dot p r0, dot p r1, dot p r2).
Definition matmul (a b : matrix) : matrix :=
  let '(a0, a1, a2) := a in (vecmat a0 b, vecmat a1 b, vecmat a2 b).

(** Columns of a batch ([p[:, 0]] ...) and [np.stack(arrs, axis=-1)]. *)
Definition col0 (p : batch) : list num := map (fun r => r.1.1) p.
Definition col1 (p : batch) : list num := map (fun r => r.1.2) p.
Definition col2 (p : batch) : list num := map (fun r => r.2) p.
Definition _vec (xs ys zs : list num) : batch :=
  zip_with (fun xy z => (xy.1, xy.2, z)) (zip_with pair xs ys) zs.

(** The helpers of the source. *)
Definition _length (a : batch) : list num := map norm a.
Definition _normalize (a : vec) : vec := vmap (fun c => c / norm a) a.
Definition _dot (a b : batch) : list num := zip_with dot a b.
Definition _min : list num -> list num -> list num := zip_with Num.minimum.
Definition _max : list num -> list num -> list num := zip_with Num.maximum.

End Helpers.

(** ** Fields *)

(** [class SDF3]: the wrapped function [f], and the attribute [_k], which
    [__init__] does not create ([None] here), and which holds Python's
    [None] or a number once [k] has been called. *)
Record SDF3 : Type := mkSDF3 {
  f : batch -> list num;
  _k : option (option num)
}.

(** [SDF3(f)]. *)
Definition SDF3_init (g : batch -> list num) : SDF3 := mkSDF3 g None.

(** [__call__]: [self.f(p).reshape((-1, 1))]; the reshape keeps the values
    and their order. *)
Definition call (s : SDF3) (p : batch) : list num := f s p.

Section Primitives.
Local Open Scope num_scope.

Definition sphere (radius : num) (center : vec) : SDF3 :=
  SDF3_init (fun p =>
    map (fun d => d - radius) (_length (map (fun r => vsub r center) p))).

Definition plane (normal point : vec) : SDF3 :=
  let normal := _normalize normal in
  SDF3_init (fun p => map (fun r => dot (vsub point r) normal) p).

Definition tetrahedron (r : num) : SDF3 :=
  SDF3_init (fun p =>
    let x := col0 p in
    let y := col1 p in
    let z := col2 p in
    map (fun a => (a - Fin 1) / Num.sqrt (Fin 3))
      (_max (zip_with Num.sub (map Num.abs (zip_with Num.add x y)) z)
            (zip_with Num.add (map Num.abs (zip_with Num.sub x y)) z))).

End Primitives.

(** ** Positioning *)

Section Positioning.
Local Open Scope num_scope.

Definition translate (other : SDF3) (offset : vec) : SDF3 :=
  SDF3_init (fun p => call other (map (fun r => vsub r offset) p)).

(** The array literal that [rotate], [rotateD], [mirror] and [mirror_copy]
    each write out, before [.T]. *)
Definition rotation_array (x y z s c : num) : matrix :=
  let m := Fin 1 - c in
  ((m * x * x + c, m * x * y + z * s, m * z * x - y * s),
   (m * x * y - z * s, m * y * y + c, m * y * z + x * s),
   (m * z * x + y * s, m * y * z - x * s, m * z * z + c)).

Definition rotate (other : SDF3) (angle : num) (vector : vec) : SDF3 :=
  let '(x, y, z) := _normalize vector in
  let s := Num.sin angle in
  let c := Num.cos angle in
  let matrix := transpose (rotation_array x y z s c) in
  SDF3_init (fun p => call other (map (fun r => vecmat r matrix) p)).

Definition rotateD (other : SDF3) (angle : num) (vector : vec) : SDF3 :=
  let '(x, y, z) := _normalize vector in
  let s := Num.sin (angle * (Fin 180 / Fin PI)) in
  let c := Num.cos (angle * (Fin 180 / Fin PI)) in
  let matrix := transpose (rotation_array x y z s c) in
  SDF3_init (fun p => call other (map (fun r => vecmat r matrix) p)).

End Positioning.

Section Mirror.
Local Open Scope num_scope.

(** The flip [[[1, 0, 0], [0, 1, 0], [0, 0, -1]]]. *)
Definition flip_z : matrix :=
  ((Fin 1, Fin 0, Fin 0), (Fin 0, Fin 1, Fin 0), (Fin 0, Fin 0, Fin (-1))).

Definition mirror (other : SDF3) (axis center : vec) : SDF3 :=
  let a := _normalize axis in
  let dot_ := dot UP a in
  if Num.eqb dot_ (Fin 1) || Num.eqb dot_ (Fin (-1)) then
    SDF3_init (fun p =>
      call other
        (map (fun r => vadd (vecmat (vsub r center) flip_z) center) p))
  else
    let angle := Num.arccos dot_ in
    let '(x, y, z) := _normalize (cross UP a) in
    (* Rotate to the Z axis *)
    let s := Num.sin angle in
    let c := Num.cos angle in
    let matrix_a := transpose (rotation_array x y z s c) in
    (* Do the flip *)
    let matrix_b := transpose flip_z in
    (* Rotate back *)
    let s := Num.sin (- angle) in
    let c := Num.cos (- angle) in
    let matrix_c := transpose (rotation_array x y z s c) in
    (* Create the overall transformation matrix *)
    let matrix := matmul (matmul matrix_a matrix_b) matrix_c in
    SDF3_init (fun p =>
      call other
        (map (fun r => vadd (vecmat (vsub r center) matrix) center) p)).

Definition circular_array (other : SDF3) (count offset : num) : SDF3 :=
  let other := translate other (vscale X offset) in
  let da := Fin 2 * Fin PI / count in
  SDF3_init (fun p =>
    let x := col0 p in
    let y := col1 p in
    let z := col2 p in
    let d := zip_with Num.hypot x y in
    let a := map (fun t => Num.mod_ t da) (zip_with Num.arctan2 y x) in
    let d1 := call other
                (_vec (zip_with Num.mul (map (fun t => Num.cos (t - da)) a) d)
                      (zip_with Num.mul (map (fun t => Num.sin (t - da)) a) d)
                      z) in
    let d2 := call other
                (_vec (zip_with Num.mul (map Num.cos a) d)
                      (zip_with Num.mul (map Num.sin a) d)
                      z) in
    _min d1 d2).

End Mirror.

Section Platonic.
Local Open Scope num_scope.

Definition dodecahedron (r : num) : SDF3 :=
  let '(x, y, z) :=
    _normalize ((Fin 1 + Num.sqrt (Fin 5)) / Fin 2, Fin 1, Fin 0) in
  SDF3_init (fun p =>
    let p := map (fun r3 => vabs (vmap (fun c => c / r) r3)) p in
    let a := map (fun r3 => dot r3 (x, y, z)) p in
    let b := map (fun r3 => dot r3 (z, x, y)) p in
    let c := map (fun r3 => dot r3 (y, z, x)) p in
    let q := map (fun t => (t - x) * r) (_max (_max a b) c) in
    q).

Definition icosahedron (r : num) : SDF3 :=
  let r := r * Fin 0.8506507174597755 in
  let '(x, y, z) :=
    _normalize ((Num.sqrt (Fin 5) + Fin 3) / Fin 2, Fin 1, Fin 0) in
  let w := Num.sqrt (Fin 3) / Fin 3 in
  SDF3_init (fun p =>
    let p := map (fun r3 => vabs (vmap (fun c => c / r) r3)) p in
    let a := map (fun r3 => dot r3 (x, y, z)) p in
    let b := map (fun r3 => dot r3 (z, x, y)) p in
    let c := map (fun r3 => dot r3 (y, z, x)) p in
    let d := map (fun r3 => dot r3 (w, w, w) - x) p in
    map (fun t => t * r)
      (_max (map (fun t => t - x) (_max (_max a b) c)) d)).

End Platonic.

(** ** Real vectors

    The finite vectors the properties are stated for. *)

Section RealVectors.
Local Open Scope R_scope.

(** The squared length of a real vector, and its length. *)
Definition sqlen (v : R * R * R) : R :=
  v.1.1 * v.1.1 + v.1.2 * v.1.2 + v.2 * v.2.
Definition len (v : R * R * R) : R := sqrt (sqlen v).

(** The unit vector of a real vector. *)
Definition unitv (v : R * R * R) : R * R * R :=
  (v.1.1 / len v, v.1.2 / len v, v.2 / len v).

(** The operations above on finite vectors and matrices, with real
    entries. *)
Definition rmat : Type := (R * R * R) * (R * R * R) * (R * R * R).
Definition fmat (m : rmat) : matrix := (fvec m.1.1, fvec m.1.2, fvec m.2).

Definition radd (a b : R * R * R) : R * R * R :=
  let '(a0, a1, a2) := a in
  let '(b0, b1, b2) := b in (a0 + b0, a1 + b1, a2 + b2).
Definition rsub (a b : R * R * R) : R * R * R :=
  let '(a0, a1, a2) := a in
  let '(b0, b1, b2) := b in (a0 - b0, a1 - b1, a2 - b2).
Definition rdot (a b : R * R * R) : R :=
  let '(a0, a1, a2) := a in
  let '(b0, b1, b2) := b in a0 * b0 + a1 * b1 + a2 * b2.
Definition rcross (a b : R * R * R) : R * R * R :=
  let '(a0, a1, a2) := a in
  let '(b0, b1, b2) := b in
  (a1 * b2 - a2 * b1, a2 * b0 - a0 * b2, a0 * b1 - a1 * b0).
Definition rtranspose (m : rmat) : rmat :=
  let '((m00, m01, m02), (m10, m11, m12), (m20, m21, m22)) := m in
  ((m00, m10, m20), (m01, m11, m21), (m02, m12, m22)).
Definition rvecmat (p : R * R * R) (m : rmat) : R * R * R :=
  let '(r0, r1, r2) := rtranspose m in (rdot p r0, rdot p r1, rdot p r2).
Definition rmatmul (a b : rmat) : rmat :=
  let '(a0, a1, a2) := a in (rvecmat a0 b, rvecmat a1 b, rvecmat a2 b).
Definition rrotation_array (x y z s c : R) : rmat :=
  let m := 1 - c in
  ((m * x * x + c, m * x * y + z * s, m * z * x - y * s),
   (m * x * y - z * s, m * y * y + c, m * y * z + x * s),
   (m * z * x + y * s, m * y * z - x * s, m * z * z + c)).
Definition rflip_z : rmat := ((1, 0, 0), (0, 1, 0), (0, 0, -1)).
Definition ridentity : rmat := ((1, 0, 0), (0, 1, 0), (0, 0, 1)).

(** The row map of a reflection with matrix [M] about [cen]. *)
Definition reflect_row (M : rmat) (cen : R * R * R) (r : vec) : vec :=
  vadd (vecmat (vsub r (fvec cen)) (fmat M)) (fvec cen).

(** The point [p] turned by the angle [t] about the z axis. *)
Definition rotate_about_z (t : R) (p : R * R * R) : R * R * R :=
  (p.1.1 * cos t - p.1.2 * sin t, p.1.1 * sin t + p.1.2 * cos t, p.2).

(** The golden ratio, and the vertices of the two solids the properties
    are stated at: the vertex of the regular dodecahedron along
    [(1, 1, 1)] and the vertex of the regular icosahedron along
    [(0, 1, phi)], each at distance [d] from the origin. *)
Definition phi : R := (1 + sqrt 5) / 2.
Definition dodecahedron_vertex (d : R) : R * R * R :=
  (d / sqrt 3, d / sqrt 3, d / sqrt 3).
Definition icosahedron_vertex (d : R) : R * R * R :=
  (0, d / sqrt (1 + phi * phi), d * phi / sqrt (1 + phi * phi)).

End RealVectors.

(** The two rows that [circular_array] hands to the wrapped field for the
    row [r] of the batch, [shift] being [da] for the first and 0 for the
    second. *)
Definition circular_row (da shift : num) (r : vec) : vec :=
  let a := Num.mod_ (Num.arctan2 r.1.2 r.1.1) da in
  let d := Num.hypot r.1.1 r.1.2 in
  (Num.mul (Num.cos (Num.sub a shift)) d,
   Num.mul (Num.sin (Num.sub a shift)) d,
   r.2).

(** ** Operator registry and dispatch *)

(** The exceptions of the source: [raise AttributeError] (bare, without a
    message) in [__getattr__], which is also the class Python raises, with
    a message, for an attribute that does not exist;
    [raise ValueError("zero vector")] in [_perpendicular]; and the
    [TypeError] of a call with the wrong arguments. *)
Inductive exn : Type :=
| AttributeError (msg : option string)
| ValueError (msg : string)
| TypeError.

(** Positional arguments of an operator, and a registered wrapper: the
    wrapper that [op3] stores in [_ops]. *)
Inductive value : Type :=
| VNum (a : num)
| VVec (v : vec)
| VField (s : SDF3).

Definition operator : Type := list value -> exn + SDF3.

(** [functools.partial] of a function and leading arguments, and its call. *)
Record partial : Type := mk_partial {
  func : operator;
  args : list value
}.

Definition call_partial (p : partial) (more : list value) : exn + SDF3 :=
  func p (args p ++ more).

(** [SDF3.__getattr__], over the registry [_ops]. *)
Definition __getattr__ (_ops : gmap string operator) (self : SDF3) (name : string)
  : exn + partial :=
  match _ops !! name with
  | Some g => inr (mk_partial g [VField self])
  | None => inl (AttributeError None)
  end.

(** Attribute access [self.name].  Python looks the name up on the
    instance ([f], and [_k] once [k] has set it) and on the class (its
    methods) first, and calls [__getattr__] only when both fail. *)
Inductive attribute : Type :=
| AFunction (g : batch -> list num)
| ACoefficient (k : option num)
| AMethod (name : string) (self : SDF3)
| AOperator (p : partial).

Definition methods : list string :=
  ["__init__"; "__call__"; "__getattr__"; "__or__"; "__and__"; "__sub__";
   "k"; "generate"; "save"; "show_slice"]%string.

Definition instance_attribute (self : SDF3) (name : string) : option attribute :=
  if decide (name = "f"%string) then Some (AFunction (f self))
  else if decide (name = "_k"%string) then ACoefficient <$> _k self
  else None.

Definition getattr (_ops : gmap string operator) (self : SDF3) (name : string)
  : exn + attribute :=
  match instance_attribute self name with
  | Some a => inr a
  | None =>
      if decide (name ∈ methods) then inr (AMethod name self)
      else match __getattr__ _ops self name with
           | inl e => inl e
           | inr p => inr (AOperator p)
           end
  end.

(** The errors of Python's attribute-not-found class. *)
Definition attribute_not_found (e : exn) : Prop :=
  exists msg, e = AttributeError msg.

(** The wrappers of the operators embedded above, as [op3] registers
    them under the name of the decorated function. *)
Definition translate_op : operator := fun a =>
  match a with
  | [VField other; VVec offset] => inr (translate other offset)
  | _ => inl TypeError
  end.
Definition rotate_op : operator := fun a =>
  match a with
  | [VField other; VNum angle] => inr (rotate other angle Z)
  | [VField other; VNum angle; VVec vector] => inr (rotate other angle vector)
  | _ => inl TypeError
  end.
Definition rotateD_op : operator := fun a =>
  match a with
  | [VField other; VNum angle] => inr (rotateD other angle Z)
  | [VField other; VNum angle; VVec vector] => inr (rotateD other angle vector)
  | _ => inl TypeError
  end.
Definition mirror_op : operator := fun a =>
  match a with
  | [VField other] => inr (mirror other Z ORIGIN)
  | [VField other; VVec axis] => inr (mirror other axis ORIGIN)
  | [VField other; VVec axis; VVec center] => inr (mirror other axis center)
  | _ => inl TypeError
  end.
Definition circular_array_op : operator := fun a =>
  match a with
  | [VField other; VNum count] => inr (circular_array other count (Fin 0))
  | [VField other; VNum count; VNum offset] => inr (circular_array other count offset)
  | _ => inl TypeError
  end.

Definition embedded_ops : gmap string operator :=
  list_to_map
    [("translate", translate_op); ("rotate", rotate_op); ("rotateD", rotateD_op);
     ("mirror", mirror_op); ("circular_array", circular_array_op)]%string.

(** ** Fields as objects

    A store of [SDF3] objects by reference.  The source assigns to the
    attributes of a Field in two places only: [self.f = f] in [__init__],
    on the object being created, and [self._k = k] in [k].  A closure
    that captured another Field therefore finds, whenever it is
    evaluated, the [f] that Field was created with. *)

Module Lifecycle.

Abbreviation ref := nat.
Abbreviation store := (gmap nat SDF3).

(** [SDF3(g)]: a new object. *)
Definition new (g : batch -> list num) (h : store) : ref * store :=
  let l := fresh (dom h) in (l, <[l := SDF3_init g]> h).

(** [SDF3.k]: [self._k = k; return self]. *)
Definition k (self : ref) (kv : option num) (h : store) : option (ref * store) :=
  match h !! self with
  | Some o => Some (self, <[self := mkSDF3 (f o) (Some kv)]> h)
  | None => None
  end.

(** [SDF3.__call__]. *)
Definition call_ref (self : ref) (p : batch) (h : store) : option (list num * store) :=
  match h !! self with
  | Some o => Some (call o p, h)
  | None => None
  end.

(** The wrapper that [op3] (and [sdf3]) put around a function [body]
    returning a closure: [SDF3] applied to the closure.  The body reads the Fields
    it is given and may create Fields of its own. *)
Definition op3 (body : store -> option ((batch -> list num) * store)) (h : store)
  : option (ref * store) :=
  match body h with
  | Some (g, h1) => Some (new g h1)
  | None => None
  end.

(** The body of [translate]. *)
Definition translate_body (other : ref) (offset : vec) (h : store)
  : option ((batch -> list num) * store) :=
  match h !! other with
  | Some o => Some (f (translate o offset), h)
  | None => None
  end.

(** The body of [circular_array], which first creates
    [other.translate(X * offset)]. *)
Definition circular_array_body (other : ref) (count offset : num) (h : store)
  : option ((batch -> list num) * store) :=
  match h !! other with
  | Some o =>
      match op3 (translate_body other (vscale X offset)) h with
      | Some (_, h1) => Some (f (circular_array o count offset), h1)
      | None => None
      end
  | None => None
  end.

End Lifecycle.

(** ** Arrays as objects

    numpy arrays by reference, for the three closures of the source that
    assign into an array ([pyramid], [wrap_around], [slice]).  The memory
    is the list of the buffers allocated so far; an array is a buffer and
    a view on it.  A buffer is a list of rows; a 1-D array of length [n]
    and an [n x 1] array are both [n] rows of one number, so the reshapes
    of the source ([reshape(-1)], [reshape((-1, 1))]) leave an array as
    it is.  Each assignment [name = expression] of the source allocates
    one buffer, for the value of the expression (its temporaries are
    never referred to again); boolean masks are only read and are kept as
    values. *)

Module Arrays.

Abbreviation buffer := (list (list num)).
Abbreviation mem := (list buffer).

Inductive view : Type :=
| Whole
| Column (j : nat).

Record ndarray : Type := mk_ndarray {
  base : nat;
  sel : view
}.

(** Computations on the memory. *)
Definition M (A : Type) : Type := mem -> A * mem.

#[export] Instance M_ret : MRet M := fun A a m => (a, m).
#[export] Instance M_bind : MBind M :=
  fun A B k c m => let '(a, m1) := c m in k a m1.

Definition entry (j : nat) (r : list num) : num := nth j r NaN.

Definition viewed (s : view) (b : buffer) : buffer :=
  match s with
  | Whole => b
  | Column j => map (fun r => [entry j r]) b
  end.

(** Reading the values of an array. *)
Definition load (a : ndarray) : M buffer :=
  fun m => (viewed (sel a) (default [] (m !! base a)), m).

(** A new array holding [b]. *)
Definition alloc (b : buffer) : M ndarray :=
  fun m => (mk_ndarray (length m) Whole, m ++ [b]).

(** [a[:, j]]: basic indexing, a view on the buffer of [a]. *)
Definition col (a : ndarray) (j : nat) : ndarray :=
  mk_ndarray (base a) (Column j).

(** [reshape(-1)] and [reshape((-1, 1))]: a view on the same buffer. *)
Definition reshape (a : ndarray) : ndarray := a.

(** [b[w]] for a boolean mask [w]: the selected rows, copied. *)
Fixpoint select (w : list bool) (b : buffer) : buffer :=
  match w, b with
  | true :: w', r :: b' => r :: select w' b'
  | false :: w', _ :: b' => select w' b'
  | _, _ => []
  end.

(** [b[w] = v]: the selected rows of [b] are overwritten, in order, with
    the rows of [v]. *)
Fixpoint put_rows (w : list bool) (v b : buffer) : buffer :=
  match w, b with
  | true :: w', r :: b' =>
      match v with
      | x :: v' => x :: put_rows w' v' b'
      | [] => r :: b'
      end
  | false :: w', r :: b' => r :: put_rows w' v b'
  | _, _ => b
  end.

(** [b[:, j] = z]. *)
Definition put_col (j : nat) (z b : buffer) : buffer :=
  zip_with (fun r zr => <[j := entry 0 zr]> r) b z.

(** The two assignments into an array, [a[w] = v] and [a[:, j] = z]: the
    buffer of [a] is overwritten in place. *)
Definition setitem_mask (a : ndarray) (w : list bool) (v : buffer) : M unit :=
  fun m => (tt, alter (put_rows w v) (base a) m).
Definition setitem_col (a : ndarray) (j : nat) (z : buffer) : M unit :=
  fun m => (tt, alter (put_col j z) (base a) m).

Section Closures.
Local Open Scope num_scope.

(** The closure of [pyramid(h)], applied to the array [p]. *)
Definition pyramid (h : num) (p : ndarray) : M ndarray :=
  pv ← load p;
  a ← alloc (map (fun r => [Num.abs (entry 0 r) - Fin 0.5;
                            Num.abs (entry 1 r) - Fin 0.5]) pv);
  a1 ← load (col a 1);
  a0 ← load (col a 0);
  let w := zip_with (fun u v => Num.gtb (entry 0 u) (entry 0 v)) a1 a0 in
  av ← load a;
  _ ← setitem_mask a w (select w (map (fun r => [entry 1 r; entry 0 r]) av));
  let px := col a 0 in
  let py := col p 2 in
  let pz := col a 1 in
  pxv ← load px;
  pyv ← load py;
  pzv ← load pz;
  let m2 := h * h + Fin 0.25 in
  let row (px py pz : num) : num :=
    let qx := pz in
    let qy := h * py - Fin 0.5 * px in
    let qz := h * px + Fin 0.5 * py in
    let s := Num.maximum (- qx) (Fin 0) in
    let t := Num.clip ((qy - Fin 0.5 * pz) / (m2 + Fin 0.25)) (Fin 0) (Fin 1) in
    let a := m2 * ((qx + s) * (qx + s)) + qy * qy in
    let b := m2 * ((qx + Fin 0.5 * t) * (qx + Fin 0.5 * t))
             + (qy - m2 * t) * (qy - m2 * t) in
    let d2 := if Num.gtb (Num.minimum qy (- qx * m2 - qy * Fin 0.5)) (Fin 0)
              then Fin 0 else Num.minimum a b in
    Num.sqrt ((d2 + qz * qz) / m2) * Num.sign (Num.maximum qz (- py)) in
  alloc (zip_with (fun xz y => [row (entry 0 xz.1) (entry 0 y) (entry 0 xz.2)])
           (zip_with pair pxv pzv) pyv).

(** The closure of [wrap_around(other, x0, x1, r, e)]; [other] is the
    call of the wrapped field and [e] the easing function. *)
Definition wrap_around (other : ndarray -> M ndarray) (x0 x1 : num)
    (r : option num) (e : list num -> list num) (p : ndarray) : M ndarray :=
  let p0 := vscale X x0 in
  let p1 := vscale X x1 in
  let v := vmap Num.neg Y in
  let r := match r with
           | Some r => r
           | None => norm (vsub p1 p0) / (Fin 2 * Fin PI)
           end in
  let x := col p 0 in
  let y := col p 1 in
  let z := col p 2 in
  xv ← load x;
  yv ← load y;
  d ← alloc (zip_with (fun u w => [Num.hypot (entry 0 u) (entry 0 w) - r]) xv yv);
  let d := reshape d in
  a ← alloc (zip_with (fun w u => [Num.arctan2 (entry 0 w) (entry 0 u)]) yv xv);
  av ← load a;
  t ← alloc (map (fun u => [(entry 0 u + Fin PI) / (Fin 2 * Fin PI)]) av);
  tv ← load t;
  t ← alloc (map (fun u => [u]) (e (map (entry 0) tv)));
  let t := reshape t in
  tv ← load t;
  dv ← load d;
  q ← alloc (zip_with (fun ti di =>
               let '(q0, q1, q2) :=
                 vadd (vadd p0 (vscale (vsub p1 p0) (entry 0 ti)))
                      (vscale v (entry 0 di)) in
               [q0; q1; q2]) tv dv);
  zv ← load z;
  _ ← setitem_col q 2 zv;
  other q.

(** The closure of [slice(other)]; [a] and [b] are the calls of the two
    fields [other & s] and [other.negate() & s] built before it. *)
Definition slice (a b : ndarray -> M ndarray) (p : ndarray) : M ndarray :=
  p0 ← load (col p 0);
  p1 ← load (col p 1);
  p ← alloc (zip_with (fun u w => [entry 0 u; entry 0 w; Fin 0]) p0 p1);
  A ← a p;
  let A := reshape A in
  B ← b p;
  Bv ← load (reshape B);
  B ← alloc (map (fun u => [- entry 0 u]) Bv);
  Av ← load A;
  let w := map (fun u => Num.leb (entry 0 u) (Fin 0)) Av in
  Bv ← load B;
  _ ← setitem_mask A w (select w Bv);
  mret A.

End Closures.

(** A call that writes to no array that existed before it, and returns
    an array allocated during it. *)
Definition allocates_only (g : ndarray -> M ndarray) : Prop :=
  forall (p : ndarray) (m : mem),
    m `prefix_of` (g p m).2 /\ length m <= base (g p m).1.

(** A closure that writes into its own argument, for comparison:
    [p[:, 2] = p[:, 0]] on the batch it is given. *)
Definition overwrite_input (p : ndarray) : M ndarray :=
  x ← load (col p 0);
  _ ← setitem_col p 2 x;
  mret p.

(** A computation that, run on a memory of at least [n] buffers, leaves
    the first [n] as they are, drops none, and returns a value in [Q]. *)
Definition keeps {A : Type} (n : nat) (c : M A) (Q : A -> Prop) : Prop :=
  forall m : mem,
    n <= length m ->
    take n (c m).2 = take n m /\ length m <= length (c m).2 /\ Q (c m).1.

End Arrays.

(** ** More of the source: primitives *)

Section MorePrimitives.
Local Open Scope num_scope.

(** [np.tan], and [a < b] on scalars (false as soon as one side is nan). *)
Definition num_tan : num -> num := Num.lift1 tan.
Definition num_ltb (a b : num) : bool :=
  match a, b with
  | Fin x, Fin y => if Rlt_dec x y then true else false
  | _, _ => false
  end.

(** Python's builtin [min(a, b)]: [b] when [b < a], else [a]. *)
Definition pymin (a b : num) : num := if num_ltb b a then b else a.

(** [np.amax(q, axis=1)] for one row, [np.sum(q, axis=1)] for one row, and
    [np.linalg.norm] of a row of two columns. *)
Definition amax (r : vec) : num :=
  let '(a, b, c) := r in Num.maximum (Num.maximum a b) c.
Definition rowsum (r : vec) : num :=
  let '(a, b, c) := r in a + b + c.
Definition norm2 (a b : num) : num := Num.sqrt (a * a + b * b).

(** The distance to the axis-aligned box that [box] and the periodic
    surfaces each write out:
    [q = np.abs(p - center) - size / 2] and
    [_length(_max(q, 0)) + _min(np.amax(q, axis=1), 0)], for one row. *)
Definition box_row (size center r : vec) : num :=
  let q := vsub (vabs (vsub r center)) (vmap (fun c => c / Fin 2) size) in
  norm (vmap (fun c => Num.maximum c (Fin 0)) q) + Num.minimum (amax q) (Fin 0).

(** [box(size, center)] with a tuple [size]; a scalar size broadcasts as
    the tuple of three equal sides. *)
Definition box (size center : vec) : SDF3 :=
  SDF3_init (fun p =>
    let q := map (fun r => vsub (vabs (vsub r center))
                             (vmap (fun c => c / Fin 2) size)) p in
    zip_with Num.add
      (_length (map (vmap (fun c => Num.maximum c (Fin 0))) q))
      (map (fun r => Num.minimum (amax r) (Fin 0)) q)).

(** [box(a=a, b=b)]: the inner call returns a Field, which the decorator
    wraps once more. *)
Definition box_corners (a b : vec) : SDF3 :=
  let size := vsub b a in
  let center := vadd a (vmap (fun c => c / Fin 2) size) in
  SDF3_init (call (box size center)).

Definition rounded_box (size : vec) (radius : num) (center : vec) : SDF3 :=
  SDF3_init (fun p =>
    let q := map (fun r => vmap (fun c => c + radius)
                             (vsub (vabs (vsub r center))
                                   (vmap (fun c => c / Fin 2) size))) p in
    map (fun d => d - radius)
      (zip_with Num.add
         (_length (map (vmap (fun c => Num.maximum c (Fin 0))) q))
         (map (fun r => Num.minimum (amax r) (Fin 0)) q))).

Definition capsule (a b : vec) (radius : num) : SDF3 :=
  SDF3_init (fun p =>
    let pa := map (fun r => vsub r a) p in
    let ba := vsub b a in
    let h := map (fun r => Num.clip (dot r ba / dot ba ba) (Fin 0) (Fin 1)) pa in
    map (fun d => d - radius)
      (_length (zip_with (fun r hi => vsub r (vscale ba hi)) pa h))).

Definition cylinder (radius : num) : SDF3 :=
  SDF3_init (fun p => map (fun r => norm2 r.1.1 r.1.2 - radius) p).

Definition ellipsoid (size : vec) : SDF3 :=
  SDF3_init (fun p =>
    let k0 := _length (map (fun r => vdiv r size) p) in
    let k1 := _length (map (fun r => vdiv r (vmul size size)) p) in
    zip_with Num.div (map (fun k => k * (k - Fin 1)) k0) k1).

Definition octahedron (r : num) : SDF3 :=
  SDF3_init (fun p =>
    map (fun r3 => (rowsum (vabs r3) - r)
                   * num_tan (Fin 30 * (Fin PI / Fin 180))) p).

Definition schwarzP (thickness topology : num) (size center : vec) : SDF3 :=
  SDF3_init (fun p =>
    let x := col0 p in
    let y := col1 p in
    let z := col2 p in
    let d := map (fun t => Num.abs (t - topology) - thickness)
               (zip_with Num.add
                  (zip_with Num.add (map Num.cos x) (map Num.cos y))
                  (map Num.cos z)) in
    _max d (map (box_row size center) p)).

Definition gyroid (thickness topology : num) (size center : vec) : SDF3 :=
  SDF3_init (fun p =>
    let x := col0 p in
    let y := col1 p in
    let z := col2 p in
    let d := map (fun t => Num.abs (t - topology) - thickness)
               (zip_with Num.add
                  (zip_with Num.add
                     (zip_with Num.mul (map Num.cos x) (map Num.sin y))
                     (zip_with Num.mul (map Num.cos y) (map Num.sin z)))
                  (zip_with Num.mul (map Num.cos z) (map Num.sin x))) in
    _max d (map (box_row size center) p)).

End MorePrimitives.

(** ** More of the source: operators *)

Section MoreOperators.
Local Open Scope num_scope.

(** [_perpendicular]. *)
Definition _perpendicular (v : vec) : exn + vec :=
  let '(v0, v1, v2) := v in
  if Num.eqb v1 (Fin 0) && Num.eqb v2 (Fin 0) then
    if Num.eqb v0 (Fin 0) then inl (ValueError "zero vector")
    else inr (cross v (Fin 0, Fin 1, Fin 0))
  else inr (cross v (Fin 1, Fin 0, Fin 0)).

(** [scale]: the factor is a number or a tuple of three. *)
Definition scale (other : SDF3) (factor : num + vec) : SDF3 :=
  let '(x, y, z) := match factor with
                    | inl k => (k, k, k)
                    | inr v => v
                    end in
  let s := (x, y, z) in
  let m := pymin x (pymin y z) in
  SDF3_init (fun p => map (fun d => d * m) (call other (map (fun r => vdiv r s) p))).

(** [rotate_to]: the function returns a Field ([other] itself, or the
    result of [rotate]), which the decorator wraps once more. *)
Definition rotate_to (other : SDF3) (a b : vec) : exn + SDF3 :=
  let a := _normalize a in
  let b := _normalize b in
  let dot_ := dot b a in
  let wrap (s : SDF3) : SDF3 := SDF3_init (call s) in
  if Num.eqb dot_ (Fin 1) then inr (wrap other)
  else if Num.eqb dot_ (Fin (-1)) then
    match _perpendicular a with
    | inl e => inl e
    | inr w => inr (wrap (rotate other (Fin PI) w))
    end
  else
    let angle := Num.arccos dot_ in
    let v := _normalize (cross b a) in
    inr (wrap (rotate other angle v)).

Definition mirror_copy (other : SDF3) (axis center : vec) : SDF3 :=
  let a := _normalize axis in
  let dot_ := dot UP a in
  if Num.eqb dot_ (Fin 1) || Num.eqb dot_ (Fin (-1)) then
    SDF3_init (fun p =>
      _min (call other
              (map (fun r => vadd (vecmat (vsub r center) flip_z) center) p))
           (call other p))
  else
    let angle := Num.arccos dot_ in
    let '(x, y, z) := _normalize (cross UP a) in
    (* Rotate to the Z axis *)
    let s := Num.sin angle in
    let c := Num.cos angle in
    let matrix_a := transpose (rotation_array x y z s c) in
    (* Do the flip *)
    let matrix_b := transpose flip_z in
    (* Rotate back *)
    let s := Num.sin (- angle) in
    let c := Num.cos (- angle) in
    let matrix_c := transpose (rotation_array x y z s c) in
    (* Create the overall transformation matrix *)
    let matrix := matmul (matmul matrix_a matrix_b) matrix_c in
    SDF3_init (fun p =>
      _min (call other
              (map (fun r => vadd (vecmat (vsub r center) matrix) center) p))
           (call other p)).

(** [elongate], with a tuple [size]. *)
Definition elongate (other : SDF3) (size : vec) : SDF3 :=
  SDF3_init (fun p =>
    let q := map (fun r => vsub (vabs r) size) p in
    let x := col0 q in
    let y := col1 q in
    let z := col2 q in
    let w := map (fun t => Num.minimum t (Fin 0)) (_max x (_max y z)) in
    zip_with Num.add
      (call other (map (vmap (fun c => Num.maximum c (Fin 0))) q)) w).

Definition twist (other : SDF3) (k : num) : SDF3 :=
  SDF3_init (fun p =>
    let x := col0 p in
    let y := col1 p in
    let z := col2 p in
    let c := map (fun t => Num.cos (k * t)) z in
    let s := map (fun t => Num.sin (k * t)) z in
    let x2 := zip_with Num.sub (zip_with Num.mul c x) (zip_with Num.mul s y) in
    let y2 := zip_with Num.add (zip_with Num.mul s x) (zip_with Num.mul c y) in
    let z2 := z in
    call other (_vec x2 y2 z2)).

Definition bend (other : SDF3) (k : num) : SDF3 :=
  SDF3_init (fun p =>
    let x := col0 p in
    let y := col1 p in
    let z := col2 p in
    let c := map (fun t => Num.cos (k * t)) x in
    let s := map (fun t => Num.sin (k * t)) x in
    let x2 := zip_with Num.sub (zip_with Num.mul c x) (zip_with Num.mul s y) in
    let y2 := zip_with Num.add (zip_with Num.mul s x) (zip_with Num.mul c y) in
    let z2 := z in
    call other (_vec x2 y2 z2)).

(** [transition_linear]; [e] is the easing function. *)
Definition transition_linear (f0 f1 : SDF3) (p0 p1 : vec)
    (e : list num -> list num) : SDF3 :=
  let ab := vsub p1 p0 in
  SDF3_init (fun p =>
    let d1 := call f0 p in
    let d2 := call f1 p in
    let t := map (fun r => Num.clip (dot (vsub r p0) ab / dot ab ab) (Fin 0) (Fin 1)) p in
    let t := e t in
    zip_with Num.add (zip_with Num.mul t d2)
                     (zip_with Num.mul (map (fun ti => Fin 1 - ti) t) d1)).

(** The registration that [op3] performs:
    [_ops[f.__name__] = wrapper]. *)
Definition register (name : string) (wrapper : operator)
    (_ops : gmap string operator) : gmap string operator :=
  <[name := wrapper]> _ops.

End MoreOperators.

(** ** Real points and rows used by the further properties *)

Section MoreReal.
Local Open Scope R_scope.

(** A real vector scaled by a real, and the sum of two. *)
Definition rscale (k : R) (v : R * R * R) : R * R * R :=
  (k * v.1.1, k * v.1.2, k * v.2).

(** The point [p] lies in the closed box with the given sides and
    centre. *)
Definition in_box (size center p : R * R * R) : Prop :=
  Rabs (p.1.1 - center.1.1) <= size.1.1 / 2 /\
  Rabs (p.1.2 - center.1.2) <= size.1.2 / 2 /\
  Rabs (p.2 - center.2) <= size.2 / 2.

(** The row that [twist] hands to the wrapped field. *)
Definition twist_row (k : R) (p : R * R * R) : R * R * R :=
  (cos (k * p.2) * p.1.1 - sin (k * p.2) * p.1.2,
   sin (k * p.2) * p.1.1 + cos (k * p.2) * p.1.2,
   p.2).

End MoreReal.

Section MoreReal2.
Local Open Scope R_scope.

(** The matrix that [rotate] builds for the unit axis [u] and the angle
    [a]. *)
Definition rot_matrix (u : R * R * R) (a : R) : rmat :=
  rtranspose (rrotation_array u.1.1 u.1.2 u.2 (sin a) (cos a)).

(** The mirror image of [q] across the plane through [cen] with the unit
    normal [u]. *)
Definition reflect_point (u cen q : R * R * R) : R * R * R :=
  rsub q (rscale (2 * rdot (rsub q cen) u) u).

(** The sum of the absolute coordinates. *)
Definition l1 (p : R * R * R) : R := Rabs p.1.1 + Rabs p.1.2 + Rabs p.2.

End MoreReal2.

Section MoreReal3.
Local Open Scope R_scope.

(** The value of [box_row] on finite arguments. *)
Definition box_distance (size center p : R * R * R) : R :=
  let q0 := Rabs (p.1.1 - center.1.1) - size.1.1 / 2 in
  let q1 := Rabs (p.1.2 - center.1.2) - size.1.2 / 2 in
  let q2 := Rabs (p.2 - center.2) - size.2 / 2 in
  sqrt (Rmax q0 0 * Rmax q0 0 + Rmax q1 0 * Rmax q1 0 + Rmax q2 0 * Rmax q2 0)
  + Rmin (Rmax (Rmax q0 q1) q2) 0.

(** The point [p] lies between the corners [a] and [b], coordinate by
    coordinate. *)
Definition between (a b p : R * R * R) : Prop :=
  a.1.1 <= p.1.1 <= b.1.1 /\ a.1.2 <= p.1.2 <= b.1.2 /\ a.2 <= p.2 <= b.2.

End MoreReal3.


(** [skin(other, depth)]: [_max(other(p) - depth, 0)], the scalars
    broadcast over the batch. *)
Definition skin (other : SDF3) (depth : num) : SDF3 :=
  SDF3_init (fun p =>
    map (fun d => Num.maximum (Num.sub d depth) (Fin 0)) (call other p)).

(** * Properties *)

(** ** Arithmetic on finite numbers *)

Section NumFacts.
Local Open Scope R_scope.

Lemma div_fin (x y : R) : y <> 0 -> Num.div (Fin x) (Fin y) = Fin (x / y).
Proof.
  intros Hy. unfold Num.div. destruct (Req_dec_T y 0) as [E | _]; [contradiction | reflexivity].
Qed.

Lemma sqrt_fin (x : R) : 0 <= x -> Num.sqrt (Fin x) = Fin (sqrt x).
Proof.
  intros Hx. unfold Num.sqrt. destruct (Rlt_dec x 0) as [Hlt | _]; [lra | reflexivity].
Qed.

Lemma eqb_fin_true (x y : R) : x = y -> Num.eqb (Fin x) (Fin y) = true.
Proof.
  intros ->. unfold Num.eqb. destruct (Req_dec_T y y); congruence.
Qed.

Lemma eqb_fin_false (x y : R) : x <> y -> Num.eqb (Fin x) (Fin y) = false.
Proof.
  intros H. unfold Num.eqb. destruct (Req_dec_T x y); congruence.
Qed.

Lemma sqlen_nonneg v : 0 <= sqlen v.
Proof. unfold sqlen. nra. Qed.

Lemma sqlen_pos v : v <> (0, 0, 0) -> 0 < sqlen v.
Proof.
  destruct v as [[a b] c]. unfold sqlen. simpl. intros Hv.
  destruct (Req_dec_T a 0) as [-> | Ha]; [| nra].
  destruct (Req_dec_T b 0) as [-> | Hb]; [| nra].
  destruct (Req_dec_T c 0) as [-> | Hc]; [congruence | nra].
Qed.

Lemma len_pos v : v <> (0, 0, 0) -> 0 < len v.
Proof. intros Hv. apply sqrt_lt_R0, sqlen_pos, Hv. Qed.

Lemma len_sqr v : len v * len v = sqlen v.
Proof. apply sqrt_sqrt, sqlen_nonneg. Qed.

Lemma norm_fin v : norm (fvec v) = Fin (len v).
Proof.
  destruct v as [[a b] c]. unfold norm, fvec, len. simpl.
  apply (sqrt_fin (sqlen (a, b, c))), sqlen_nonneg.
Qed.

Lemma normalize_fin v : v <> (0, 0, 0) -> _normalize (fvec v) = fvec (unitv v).
Proof.
  intros Hv. unfold _normalize. rewrite norm_fin.
  pose proof (len_pos v Hv) as Hl.
  destruct v as [[a b] c]. unfold fvec, unitv, vmap. cbn [fst snd].
  rewrite !div_fin by lra. reflexivity.
Qed.

Lemma unit_sqlen v : v <> (0, 0, 0) -> sqlen (unitv v) = 1.
Proof.
  intros Hv. pose proof (len_pos v Hv) as Hl. pose proof (len_sqr v) as Hs.
  destruct v as [[a b] c]. unfold unitv, sqlen in *. simpl in *.
  set (n := len (a, b, c)) in *.
  replace (a / n * (a / n) + b / n * (b / n) + c / n * (c / n))
    with ((a * a + b * b + c * c) / (n * n)) by (field; lra).
  rewrite Hs. field. nra.
Qed.

(** Dividing the zero vector by its length 0 leaves nan in every
    component. *)
Lemma normalize_zero : _normalize (fvec (0, 0, 0)) = (NaN, NaN, NaN).
Proof.
  unfold _normalize. rewrite norm_fin.
  assert (len (0, 0, 0) = 0) as ->.
  { unfold len, sqlen. simpl. replace (0 * 0 + 0 * 0 + 0 * 0) with 0 by ring. apply sqrt_0. }
  unfold fvec, vmap, Num.div. simpl.
  destruct (Req_dec_T 0 0); [reflexivity | congruence].
Qed.

End NumFacts.

(** ** Columns and rows *)

Lemma zip_with_map {A B C D} (g : B -> C -> D) (a : A -> B) (b : A -> C) (l : list A) :
  zip_with g (map a l) (map b l) = map (fun r => g (a r) (b r)) l.
Proof. induction l as [| r l IH]; simpl; [reflexivity | now rewrite IH]. Qed.

Lemma _vec_map {A} (a b c : A -> num) (l : list A) :
  _vec (map a l) (map b l) (map c l) = map (fun r => (a r, b r, c r)) l.
Proof. unfold _vec. now rewrite !zip_with_map. Qed.

(** ** The tetrahedron *)

Section Tetrahedron.
Local Open Scope R_scope.

(** C9: [tetrahedron] never reads its radius: two tetrahedra of any two
    radii evaluate to the same distances on every batch; the solid has
    one fixed size, with the vertex [(1, 1, 1)] on its surface whatever
    the radius. *)
Theorem tetrahedron_radius_ignored (r1 r2 : num) (p : batch) :
  call (tetrahedron r1) p = call (tetrahedron r2) p /\
  call (tetrahedron r1) (fbatch [(1, 1, 1)]) = [Fin 0].
Proof.
  split; [reflexivity |].
  unfold tetrahedron, call, SDF3_init, fbatch, col0, col1, col2, fvec.
  cbn [f map fst snd _max zip_with].
  rewrite (sqrt_fin 3) by lra.
  cbv [Num.add Num.sub Num.abs Num.maximum Num.lift1 Num.lift2 map].
  rewrite div_fin by (pose proof (sqrt_lt_R0 3); lra).
  do 2 f_equal.
  replace (1 + 1) with 2 by ring. replace (1 - 1) with 0 by ring.
  rewrite Rabs_R0, (Rabs_pos_eq 2) by lra.
  replace (2 - 1) with 1 by ring. replace (0 + 1) with 1 by ring.
  rewrite Rmax_left by lra. unfold Rdiv. ring.
Qed.

End Tetrahedron.

(** ** The plane *)

Section Plane.
Local Open Scope R_scope.

Lemma plane_row (n q : R * R * R) (s : R) :
  n <> (0, 0, 0) ->
  dot (vsub (fvec q) (vadd (fvec q) (vscale (fvec (unitv n)) (Fin s)))) (fvec (unitv n))
  = Fin (- s).
Proof.
  intros Hn. pose proof (unit_sqlen n Hn) as Hu.
  destruct (unitv n) as [[u0 u1] u2]. destruct q as [[q0 q1] q2].
  unfold sqlen in Hu. simpl in *. f_equal.
  replace ((q0 - (q0 + u0 * s)) * u0 + (q1 - (q1 + u1 * s)) * u1 + (q2 - (q2 + u2 * s)) * u2)
    with (- s * (u0 * u0 + u1 * u1 + u2 * u2)) by ring.
  rewrite Hu. ring.
Qed.

(** C8: for a non-zero normal [n], an anchor [q] and scalars [s],
    [plane(n, q)] evaluated at [q + s * normalize(n)] is [-s]: the side
    the normal points to is the negative (inside) one. *)
Theorem plane_along_normal (n q : R * R * R) (ss : list R) :
  n <> (0, 0, 0) ->
  call (plane (fvec n) (fvec q))
       (map (fun s => vadd (fvec q) (vscale (_normalize (fvec n)) (Fin s))) ss)
  = map (fun s => Fin (- s)) ss.
Proof.
  intros Hn. unfold plane. rewrite !normalize_fin by assumption.
  unfold call, SDF3_init. cbn [f].
  rewrite map_map. apply map_ext. intros s. apply plane_row, Hn.
Qed.

Lemma plane_along_normal_witness :
  call (plane (fvec (0, 0, 2)) (fvec (1, 1, 1)))
       (map (fun s => vadd (fvec (1, 1, 1)) (vscale (_normalize (fvec (0, 0, 2))) (Fin s))) [3; -1])
  = map (fun s => Fin (- s)) [3; -1].
Proof.
  apply (plane_along_normal (0, 0, 2) (1, 1, 1) [3; -1]).
  intros H. inversion H. lra.
Defined.

End Plane.

(** ** Rotation *)

(** Equality of vectors of finite numbers, component by component. *)
Ltac vec_eq :=
  repeat match goal with
         | |- (_, _) = (_, _) => apply f_equal2
         | |- Fin _ = Fin _ => apply f_equal
         end.

(** Resolve every [Rmax a b] whose left argument is at least the right
    one, innermost first. *)
Ltac max_left :=
  repeat match goal with
         | |- context [Rmax ?a ?b] => rewrite (Rmax_left a b) by nra
         end.

Ltac unfold_num :=
  cbv [Num.add Num.sub Num.mul Num.neg Num.sin Num.cos Num.lift1 Num.lift2].

Section Rotation.
Local Open Scope R_scope.

Lemma len_Z : len (0, 0, 1) = 1.
Proof.
  unfold len, sqlen. simpl.
  replace (0 * 0 + 0 * 0 + 1 * 1) with 1 by ring. apply sqrt_1.
Qed.

Lemma normalize_Z : _normalize Z = Z.
Proof.
  change Z with (fvec (0, 0, 1)). rewrite normalize_fin.
  - unfold unitv, fvec. rewrite len_Z. cbn [fst snd]. vec_eq; field.
  - intros H. inversion H. lra.
Qed.

(** The matrix built for the angle 0 maps every finite row to itself,
    whatever the finite axis. *)
Lemma rotation_zero_row (u p : R * R * R) :
  vecmat (fvec p)
    (transpose (rotation_array (Fin u.1.1) (Fin u.1.2) (Fin u.2)
                  (Num.sin (Fin 0)) (Num.cos (Fin 0))))
  = fvec p.
Proof.
  destruct u as [[u0 u1] u2], p as [[p0 p1] p2].
  cbv [vecmat transpose rotation_array dot fvec fst snd]. unfold_num.
  rewrite sin_0, cos_0. vec_eq; ring.
Qed.

(** C6, as the code has it: with the angle 0 and a non-zero axis, [rotate]
    hands every batch of finite points unchanged to the wrapped field. *)
Theorem rotate_zero_identity (A : SDF3) (v : R * R * R) (ps : list (R * R * R)) :
  v <> (0, 0, 0) ->
  call (rotate A (Fin 0) (fvec v)) (fbatch ps) = call A (fbatch ps).
Proof.
  intros Hv. unfold rotate. rewrite normalize_fin by assumption.
  unfold fvec at 1. unfold call at 1, SDF3_init. cbn [f].
  f_equal. unfold fbatch. rewrite map_map. apply map_ext.
  intros p. apply rotation_zero_row.
Qed.

Lemma rotate_zero_identity_witness :
  call (rotate (sphere (Fin 1) ORIGIN) (Fin 0) (fvec (1, 2, 2))) (fbatch [(3, 0, 4)])
  = call (sphere (Fin 1) ORIGIN) (fbatch [(3, 0, 4)]).
Proof.
  apply (rotate_zero_identity (sphere (Fin 1) ORIGIN) (1, 2, 2) [(3, 0, 4)]).
  intros H. inversion H. lra.
Defined.

(** C6 as stated fails on the zero axis: normalising it divides 0 by 0,
    the matrix is nan throughout, and the wrapped field is evaluated at
    nan instead of at the point. *)
Lemma rotate_zero_axis_not_identity :
  call (rotate (sphere (Fin 1) ORIGIN) (Fin 0) (fvec (0, 0, 0))) (fbatch [(0, 0, 0)])
  <> call (sphere (Fin 1) ORIGIN) (fbatch [(0, 0, 0)]).
Proof.
  unfold rotate. rewrite normalize_zero.
  unfold call, sphere, SDF3_init, fbatch, _length. cbn [f map].
  change (vsub (fvec (0, 0, 0)) ORIGIN) with (fvec (0 - 0, 0 - 0, 0 - 0)).
  rewrite norm_fin. cbn. discriminate.
Qed.

(** What [rotateD] computes: the rotation by [angle * (180 / pi)]
    radians. *)
Lemma rotateD_unfold (A : SDF3) (a : R) (v : vec) :
  rotateD A (Fin a) v = rotate A (Fin (a * (180 / PI))) v.
Proof.
  unfold rotateD, rotate. rewrite (div_fin 180 PI) by apply PI_neq0.
  reflexivity.
Qed.

Lemma PI_lower : 3.1415 < PI.
Proof.
  pose proof (PI_2_3_7_ineq 2) as [H _].
  unfold sum_f_R0, tg_alt, PI_2_3_7_tg, Ratan_seq in H; simpl in H.
  lra.
Qed.

Lemma PI_upper : PI < 3.1417.
Proof.
  pose proof (PI_2_3_7_ineq 2) as [_ H].
  unfold sum_f_R0, tg_alt, PI_2_3_7_tg, Ratan_seq in H; simpl in H.
  lra.
Qed.

(** 180 * (180 / pi) is no multiple of pi: 32400 / pi^2 lies strictly
    between 3282 and 3283. *)
Lemma sin_32400_PI : sin (180 * (180 / PI)) <> 0.
Proof.
  intros H. apply sin_eq_0_0 in H. destruct H as [k Hk].
  pose proof PI_lower as Hl. pose proof PI_upper as Hu.
  assert (Hk' : IZR k * (PI * PI) = 32400).
  { transitivity (180 * (180 / PI) * PI); [rewrite Hk; ring | field; lra]. }
  assert (H1 : 9.86902225 < PI * PI) by nra.
  assert (H2 : PI * PI < 9.8704) by nra.
  assert (Hlo : IZR 3282 < IZR k) by nra.
  assert (Hhi : IZR k < IZR 3283) by nra.
  apply lt_IZR in Hlo, Hhi. lia.
Qed.

End Rotation.

Section RotateD.
Local Open Scope R_scope.

Lemma normalize_unit (v : R * R * R) : sqlen v = 1 -> _normalize (fvec v) = fvec v.
Proof.
  intros Hv.
  assert (Hl : len v = 1) by (unfold len; rewrite Hv; apply sqrt_1).
  rewrite normalize_fin.
  - unfold unitv, fvec. rewrite Hl. destruct v as [[a b] c]. cbn [fst snd]. vec_eq; field.
  - intros ->. unfold sqlen in Hv. simpl in Hv. lra.
Qed.

(** The row [X] under the matrix that [rotate] builds for the axis [Z],
    read by the plane with normal [Y] (minus the second coordinate of
    the rotated row): the sine of the angle. *)
Lemma rotate_Z_plane_Y (t : R) :
  call (rotate (plane Y ORIGIN) (Fin t) Z) [X]
  = [Fin (sin t)].
Proof.
  unfold rotate, plane. rewrite normalize_Z.
  change Y with (fvec (0, 1, 0)).
  rewrite normalize_unit by (unfold sqlen; simpl; ring).
  cbv [call SDF3_init f map Z X ORIGIN fvec fst snd vecmat transpose
       rotation_array dot vsub vzip].
  unfold_num. f_equal. f_equal. ring.
Qed.

(** C1 fails on the code at 180 degrees about [Z]: [rotateD] multiplies the
    angle by 180/pi instead of pi/180, so it turns by 32400/pi radians
    and not by the half turn [rotate] makes of pi radians. *)
Theorem rotateD_180_not_half_turn :
  call (rotateD (plane Y ORIGIN) (Fin 180) Z) [X]
  <> call (rotate (plane Y ORIGIN) (Fin (180 * PI / 180)) Z) [X].
Proof.
  rewrite rotateD_unfold, !rotate_Z_plane_Y.
  replace (180 * PI / 180) with PI by field.
  rewrite sin_PI. intros H. injection H as H.
  apply sin_32400_PI, H.
Qed.

End RotateD.

(** ** Finite vectors and matrices stay finite *)

Section Finite.
Local Open Scope R_scope.

Lemma vadd_fin a b : vadd (fvec a) (fvec b) = fvec (radd a b).
Proof. destruct a as [[a0 a1] a2], b as [[b0 b1] b2]. reflexivity. Qed.

Lemma vsub_fin a b : vsub (fvec a) (fvec b) = fvec (rsub a b).
Proof. destruct a as [[a0 a1] a2], b as [[b0 b1] b2]. reflexivity. Qed.

Lemma dot_fin a b : dot (fvec a) (fvec b) = Fin (rdot a b).
Proof. destruct a as [[a0 a1] a2], b as [[b0 b1] b2]. reflexivity. Qed.

Lemma cross_fin a b : cross (fvec a) (fvec b) = fvec (rcross a b).
Proof. destruct a as [[a0 a1] a2], b as [[b0 b1] b2]. reflexivity. Qed.

Lemma transpose_fin m : transpose (fmat m) = fmat (rtranspose m).
Proof.
  destruct m as [[[[m00 m01] m02] [[m10 m11] m12]] [[m20 m21] m22]]. reflexivity.
Qed.

Lemma vecmat_fin p m : vecmat (fvec p) (fmat m) = fvec (rvecmat p m).
Proof.
  destruct p as [[p0 p1] p2].
  destruct m as [[[[m00 m01] m02] [[m10 m11] m12]] [[m20 m21] m22]]. reflexivity.
Qed.

Lemma matmul_fin a b : matmul (fmat a) (fmat b) = fmat (rmatmul a b).
Proof.
  destruct a as [[a0 a1] a2]. unfold matmul, rmatmul, fmat. cbn [fst snd].
  now rewrite <- !vecmat_fin.
Qed.

Lemma rotation_array_fin x y z s c :
  rotation_array (Fin x) (Fin y) (Fin z) (Fin s) (Fin c)
  = fmat (rrotation_array x y z s c).
Proof. reflexivity. Qed.

Lemma flip_z_fin : flip_z = fmat rflip_z.
Proof. reflexivity. Qed.

Lemma arccos_fin (d : R) : -1 <= d <= 1 -> Num.arccos (Fin d) = Fin (acos d).
Proof.
  intros [H1 H2]. unfold Num.arccos.
  destruct (Rle_dec (-1) d); [| contradiction].
  destruct (Rle_dec d 1); [reflexivity | contradiction].
Qed.

End Finite.

(** ** Mirroring *)

Section MirrorFacts.
Local Open Scope R_scope.

(** The matrix that [mirror] composes (rotate to Z, flip, rotate back) is
    its own inverse as soon as the axis is a unit vector and [s], [c] are
    the sine and cosine of one angle. *)
Lemma mirror_matrix_involutive (x y z s c : R) :
  x * x + y * y + z * z = 1 -> s * s + c * c = 1 ->
  let M := rmatmul (rmatmul (rtranspose (rrotation_array x y z s c))
                            (rtranspose rflip_z))
                   (rtranspose (rrotation_array x y z (- s) c)) in
  rmatmul M M = ridentity.
Proof.
  intros H1 H2.
  cbv [rmatmul rvecmat rtranspose rdot rrotation_array rflip_z ridentity].
  repeat apply f_equal2; nsatz.
Qed.

Lemma flip_involutive : rmatmul rflip_z rflip_z = ridentity.
Proof.
  cbv [rmatmul rvecmat rtranspose rdot rflip_z ridentity].
  repeat apply f_equal2; ring.
Qed.

(** Reflecting twice about a centre with a self-inverse matrix gives the
    point back. *)
Lemma reflect_twice (M : rmat) (cen r : R * R * R) :
  rmatmul M M = ridentity ->
  radd (rvecmat (rsub (radd (rvecmat (rsub r cen) M) cen) cen) M) cen = r.
Proof.
  destruct M as [[[[m00 m01] m02] [[m10 m11] m12]] [[m20 m21] m22]].
  destruct cen as [[c0 c1] c2], r as [[r0 r1] r2].
  cbv [rmatmul rvecmat rtranspose rdot ridentity radd rsub].
  intros H. injection H as H00 H01 H02 H10 H11 H12 H20 H21 H22.
  repeat apply f_equal2; nsatz.
Qed.

End MirrorFacts.

Section MirrorTwice.
Local Open Scope R_scope.

Lemma reflect_row_twice M cen r :
  rmatmul M M = ridentity ->
  reflect_row M cen (reflect_row M cen (fvec r)) = fvec r.
Proof.
  intros HM. unfold reflect_row.
  rewrite !vsub_fin, !vecmat_fin, !vadd_fin, !vsub_fin, !vecmat_fin, !vadd_fin.
  f_equal. apply reflect_twice, HM.
Qed.

(** For a non-zero axis, both branches of [mirror] build a field that
    reflects each row with a self-inverse matrix and hands the result to
    the wrapped field. *)
Lemma mirror_finite (v cen : R * R * R) :
  v <> (0, 0, 0) ->
  exists M : rmat,
    rmatmul M M = ridentity /\
    forall A, mirror A (fvec v) (fvec cen)
              = SDF3_init (fun p => call A (map (reflect_row M cen) p)).
Proof.
  intros Hv. unfold mirror. rewrite normalize_fin by assumption.
  pose proof (unit_sqlen v Hv) as Hu.
  destruct (unitv v) as [[u0 u1] u2] eqn:Eu.
  change UP with (fvec (0, 0, 1)). rewrite dot_fin, cross_fin.
  unfold sqlen in Hu. cbn [fst snd] in Hu.
  destruct (Req_dec_T (rdot (0, 0, 1) (u0, u1, u2)) 1) as [E1 | N1].
  { rewrite (eqb_fin_true _ _ E1). cbn [orb]. exists rflip_z. split.
    - apply flip_involutive.
    - intros A. reflexivity. }
  rewrite (eqb_fin_false _ _ N1).
  destruct (Req_dec_T (rdot (0, 0, 1) (u0, u1, u2)) (-1)) as [E2 | N2].
  { rewrite (eqb_fin_true _ _ E2). cbn [orb]. exists rflip_z. split.
    - apply flip_involutive.
    - intros A. reflexivity. }
  rewrite (eqb_fin_false _ _ N2). cbn [orb].
  cbn [rdot] in N1, N2 |- *.
  assert (Hd : -1 <= 0 * u0 + 0 * u1 + 1 * u2 <= 1) by (split; nra).
  rewrite (arccos_fin _ Hd).
  set (t := acos (0 * u0 + 0 * u1 + 1 * u2)).
  assert (Hw : rcross (0, 0, 1) (u0, u1, u2) <> (0, 0, 0)).
  { cbn [rcross]. intros H. injection H as Ha Hb _.
    assert (u0 = 0) by lra. assert (u1 = 0) by lra. subst u0 u1.
    assert (Hz : (u2 - 1) * (u2 + 1) = 0) by nra.
    apply Rmult_integral in Hz. destruct Hz; [apply N1 | apply N2]; lra. }
  rewrite (normalize_fin _ Hw).
  pose proof (unit_sqlen _ Hw) as Hxyz.
  destruct (unitv (rcross (0, 0, 1) (u0, u1, u2))) as [[x y] z].
  unfold sqlen in Hxyz. cbn [fst snd] in Hxyz.
  cbn [fvec fst snd Num.sin Num.cos Num.neg Num.lift1].
  rewrite !rotation_array_fin, flip_z_fin, !transpose_fin, !matmul_fin.
  eexists. split; [| intros A; reflexivity].
  rewrite sin_neg, cos_neg.
  apply mirror_matrix_involutive; [exact Hxyz |].
  pose proof (sin2_cos2 t) as Hsc. unfold Rsqr in Hsc. lra.
Qed.

(** C4: for a non-zero axis and any centre, mirroring twice evaluates the
    wrapped field at the very points of the batch. *)
Theorem mirror_involution (A : SDF3) (v cen : R * R * R) (ps : list (R * R * R)) :
  v <> (0, 0, 0) ->
  call (mirror (mirror A (fvec v) (fvec cen)) (fvec v) (fvec cen)) (fbatch ps)
  = call A (fbatch ps).
Proof.
  intros Hv. destruct (mirror_finite v cen Hv) as (M & HM & Hmir).
  rewrite !Hmir. unfold call, SDF3_init. cbn [f]. f_equal.
  unfold fbatch. rewrite !map_map. apply map_ext.
  intros r. apply reflect_row_twice, HM.
Qed.

Lemma mirror_involution_witness :
  call (mirror (mirror (sphere (Fin 1) X) (fvec (1, 1, 0)) (fvec (0, 2, 0)))
               (fvec (1, 1, 0)) (fvec (0, 2, 0))) (fbatch [(1, 2, 3)])
  = call (sphere (Fin 1) X) (fbatch [(1, 2, 3)]).
Proof.
  apply (mirror_involution (sphere (Fin 1) X) (1, 1, 0) (0, 2, 0) [(1, 2, 3)]).
  intros H. inversion H. lra.
Defined.

End MirrorTwice.

(** ** Dodecahedron and icosahedron *)

Section PlatonicFacts.
Local Open Scope R_scope.

Lemma sqrt5_sqr : sqrt 5 * sqrt 5 = 5.
Proof. apply sqrt_sqrt. lra. Qed.

Lemma sqrt3_sqr : sqrt 3 * sqrt 3 = 3.
Proof. apply sqrt_sqrt. lra. Qed.

Lemma sqrt5_bounds : 2.2360679 < sqrt 5 < 2.2360680.
Proof.
  pose proof sqrt5_sqr as H. pose proof (sqrt_pos 5) as H0. split; nra.
Qed.

Lemma sqrt3_bounds : 1.732 < sqrt 3 < 1.733.
Proof.
  pose proof sqrt3_sqr as H. pose proof (sqrt_pos 3) as H0. split; nra.
Qed.

Lemma phi_sqr : phi * phi = phi + 1.
Proof. unfold phi. pose proof sqrt5_sqr. field_simplify. nra. Qed.

Lemma phi_bounds : 1.618 < phi < 1.619.
Proof. unfold phi. pose proof sqrt5_bounds. lra. Qed.

(** [dodecahedron(r)] on the diagonal [(t, t, t)], [t >= 0]: the three
    face families agree there. *)
Lemma dodecahedron_diagonal (r t : R) :
  0 < r -> 0 <= t ->
  call (dodecahedron (Fin r)) (fbatch [(t, t, t)])
  = [Fin ((t / r * ((phi + 1) / len (phi, 1, 0)) - phi / len (phi, 1, 0)) * r)].
Proof.
  intros Hr Ht. unfold dodecahedron.
  rewrite (sqrt_fin 5) by lra.
  change (Fin 1 + Fin (sqrt 5))%num with (Fin (1 + sqrt 5)).
  rewrite (div_fin (1 + sqrt 5) 2) by lra.
  change (Fin ((1 + sqrt 5) / 2), Fin 1, Fin 0) with (fvec (phi, 1, 0)).
  assert (Hv : (phi, 1, 0) <> (0, 0, 0)) by (intros H; inversion H; lra).
  rewrite (normalize_fin _ Hv). pose proof (len_pos _ Hv) as Hl.
  unfold unitv. set (N := len (phi, 1, 0)) in *.
  cbn [fst snd fvec call SDF3_init f fbatch map vmap vabs].
  rewrite !(div_fin t r) by lra.
  cbv [map dot _max zip_with Num.abs Num.maximum Num.lift1 Num.lift2
       Num.add Num.sub Num.mul].
  do 2 f_equal.
  assert (Htr : 0 <= t / r) by (apply Rmult_le_pos; [lra | left; apply Rinv_0_lt_compat; lra]).
  rewrite (Rabs_pos_eq (t / r)) by exact Htr.
  max_left. field. lra.
Qed.

Lemma len_dodecahedron_vertex (d : R) : 0 <= d -> len (dodecahedron_vertex d) = d.
Proof.
  intros Hd. pose proof sqrt3_sqr as H3. pose proof sqrt3_bounds as Hb.
  unfold len, sqlen, dodecahedron_vertex. cbn [fst snd].
  apply sqrt_lem_1; [| exact Hd |].
  - assert (0 <= d / sqrt 3 * (d / sqrt 3)) by nra. lra.
  - transitivity (3 * (d * d) / (sqrt 3 * sqrt 3)); [rewrite H3; field | field; lra].
Qed.

(** [dodecahedron(r)] vanishes at the vertex along [(1, 1, 1)] at distance
    [sqrt 3 / phi * r] from the origin. *)
Lemma dodecahedron_vertex_zero (r : R) :
  0 < r ->
  call (dodecahedron (Fin r)) (fbatch [dodecahedron_vertex (sqrt 3 / phi * r)]) = [Fin 0].
Proof.
  intros Hr. pose proof sqrt3_bounds as H3. pose proof phi_bounds as Hp.
  pose proof phi_sqr as Hq.
  assert (Hv : (phi, 1, 0) <> (0, 0, 0)) by (intros H; inversion H; lra).
  pose proof (len_pos _ Hv) as Hl.
  unfold dodecahedron_vertex.
  replace (sqrt 3 / phi * r / sqrt 3) with (r / phi) by (field; lra).
  rewrite dodecahedron_diagonal; [| lra | apply Rmult_le_pos; [lra | left; apply Rinv_0_lt_compat; lra]].
  do 2 f_equal.
  transitivity ((phi + 1 - phi * phi) / (phi * len (phi, 1, 0)) * r); [field; lra |].
  rewrite Hq. field; lra.
Qed.

(** At the vertex at distance 1, [dodecahedron(1)] is negative. *)
Lemma dodecahedron_unit_vertex :
  exists d : R, d < 0 /\
    call (dodecahedron (Fin 1)) (fbatch [dodecahedron_vertex 1]) = [Fin d].
Proof.
  pose proof sqrt3_bounds as H3. pose proof phi_bounds as Hp.
  assert (Hv : (phi, 1, 0) <> (0, 0, 0)) by (intros H; inversion H; lra).
  pose proof (len_pos _ Hv) as Hl.
  eexists. split; [| unfold dodecahedron_vertex; apply dodecahedron_diagonal; [lra |]].
  - set (N := len (phi, 1, 0)) in *.
    assert (Hi : 0 < / N) by (apply Rinv_0_lt_compat; lra).
    assert (Hs : 0 < / sqrt 3) by (apply Rinv_0_lt_compat; lra).
    assert (Hs1 : / sqrt 3 < 0.5774).
    { apply Rmult_lt_reg_r with (sqrt 3); [lra |]. rewrite Rinv_l by lra. lra. }
    replace ((1 / sqrt 3 / 1 * ((phi + 1) / N) - phi / N) * 1)
      with ((/ sqrt 3 * (phi + 1) - phi) * / N) by (field; lra).
    assert (/ sqrt 3 * (phi + 1) - phi < 0) by nra. nra.
  - left. apply Rmult_lt_0_compat; [lra | apply Rinv_0_lt_compat; lra].
Qed.

Lemma len_phi2 : len (phi + 1, 1, 0) = sqrt 3 * phi.
Proof.
  pose proof sqrt3_sqr as H3. pose proof sqrt3_bounds as Hb.
  pose proof phi_bounds as Hp. pose proof phi_sqr as Hq.
  unfold len, sqlen. cbn [fst snd].
  apply sqrt_lem_1; nra.
Qed.

(** The maximum that [icosahedron] takes, on a point [(0, A, phi * A)] of
    the vertex ray: the faces [b] and [c] and the diagonal face [d] all
    meet there, and [a] lies below. [I] is the inverse of [sqrt 3 * phi]. *)
Lemma icosahedron_max (A I s3 : R) :
  0 <= A -> 0 < I -> 0 < s3 -> s3 * s3 = 3 -> I * (s3 * phi) = 1 ->
  Rmax (Rmax (Rmax (0 * ((phi + 1) * I) + A * (1 * I) + phi * A * (0 * I))
                   (0 * (0 * I) + A * ((phi + 1) * I) + phi * A * (1 * I)))
             (0 * (1 * I) + A * (0 * I) + phi * A * ((phi + 1) * I))
        - (phi + 1) * I)
       (0 * (s3 * / 3) + A * (s3 * / 3) + phi * A * (s3 * / 3) - (phi + 1) * I)
  = (phi + 1) * I * (phi * A - 1).
Proof.
  intros HA HI Hs Hs3 HIs. pose proof phi_bounds as Hp. pose proof phi_sqr as Hq.
  assert (HAI : 0 <= A * I) by nra.
  assert (Hw3 : s3 = 3 * (phi * I)) by nsatz.
  assert (Hw : s3 * / 3 = phi * I) by lra.
  rewrite Hw.
  match goal with
  | |- Rmax (Rmax (Rmax ?a ?b) ?c - ?x) ?d = _ =>
      assert (Hab : a <= b) by nra;
      assert (Hbc : c = b) by nsatz;
      assert (Hd : d = b - x) by nsatz;
      rewrite (Rmax_right a b Hab), Hbc, (Rmax_left b b (Rle_refl b)), Hd,
        (Rmax_left (b - x) (b - x) (Rle_refl _))
  end.
  nsatz.
Qed.

(** [icosahedron(r)] at the point of the vertex ray along [(0, 1, phi)]
    at distance [d] from the origin. *)
Lemma icosahedron_vertex_value (r d : R) :
  0 < r -> 0 <= d ->
  call (icosahedron (Fin r)) (fbatch [icosahedron_vertex d])
  = [Fin ((phi + 1) / (sqrt 3 * phi)
          * (d * phi / sqrt (1 + phi * phi) - r * 0.8506507174597755))].
Proof.
  intros Hr Hd. pose proof sqrt3_bounds as H3. pose proof phi_bounds as Hp.
  pose proof sqrt3_sqr as H33. pose proof phi_sqr as Hq.
  unfold icosahedron.
  change (Fin r * Fin 0.8506507174597755)%num with (Fin (r * 0.8506507174597755)).
  set (r' := r * 0.8506507174597755).
  assert (Hr' : 0 < r') by (unfold r'; nra).
  rewrite (sqrt_fin 5), (sqrt_fin 3) by lra.
  change (Fin (sqrt 5) + Fin 3)%num with (Fin (sqrt 5 + 3)).
  rewrite (div_fin (sqrt 5 + 3) 2), (div_fin (sqrt 3) 3) by lra.
  replace ((sqrt 5 + 3) / 2) with (phi + 1) by (unfold phi; field).
  change (Fin (phi + 1), Fin 1, Fin 0) with (fvec (phi + 1, 1, 0)).
  assert (Hv : (phi + 1, 1, 0) <> (0, 0, 0)) by (intros H; inversion H; lra).
  rewrite (normalize_fin _ Hv). unfold unitv. rewrite len_phi2.
  set (N1 := sqrt (1 + phi * phi)).
  assert (HN1 : 0 < N1) by (apply sqrt_lt_R0; nra).
  unfold icosahedron_vertex. fold N1.
  cbn [fst snd fvec call SDF3_init f fbatch map vmap vabs].
  rewrite (div_fin 0 r'), (div_fin (d / N1) r'), (div_fin (d * phi / N1) r') by lra.
  cbv [map dot _max zip_with Num.abs Num.maximum Num.lift1 Num.lift2
       Num.add Num.sub Num.mul].
  do 2 f_equal.
  set (A := d / N1 / r').
  assert (HA : 0 <= A).
  { unfold A. apply Rmult_le_pos; [apply Rmult_le_pos |]; try lra;
      left; apply Rinv_0_lt_compat; lra. }
  replace (d * phi / N1 / r') with (phi * A) by (unfold A; field; lra).
  replace (0 / r') with 0 by (field; lra).
  rewrite Rabs_R0, (Rabs_pos_eq A HA), (Rabs_pos_eq (phi * A)) by nra.
  set (I := / (sqrt 3 * phi)).
  assert (HI : 0 < I) by (apply Rinv_0_lt_compat; nra).
  assert (HIs : I * (sqrt 3 * phi) = 1) by (unfold I; field; lra).
  unfold Rdiv. fold I.
  rewrite (icosahedron_max A I (sqrt 3)) by (assumption || lra).
  unfold A. field. lra.
Qed.

Lemma len_icosahedron_vertex (d : R) : 0 <= d -> len (icosahedron_vertex d) = d.
Proof.
  intros Hd. pose proof phi_bounds as Hp.
  assert (HN : 0 < 1 + phi * phi) by nra.
  pose proof (sqrt_lt_R0 _ HN) as HN1. pose proof (sqrt_sqrt (1 + phi * phi) (Rlt_le _ _ HN)) as HNN.
  unfold len, sqlen, icosahedron_vertex. cbn [fst snd].
  set (N1 := sqrt (1 + phi * phi)) in *.
  apply sqrt_lem_1; [| exact Hd |].
  - assert (0 <= d / N1 * (d / N1)) by nra.
    assert (0 <= d * phi / N1 * (d * phi / N1)) by nra. lra.
  - transitivity (d * d * (1 + phi * phi) / (N1 * N1)); [rewrite HNN; field; lra | field; lra].
Qed.

(** The exact correction factor [phi / sqrt (1 + phi^2)] exceeds the
    constant of the source by less than [1e-7]. *)
Lemma correction_constant_bounds :
  0.8506507174597755 < phi / sqrt (1 + phi * phi) < 0.8506507174597755 + 0.0000001.
Proof.
  pose proof sqrt5_bounds as H5.
  assert (Hp : 1.61803395 < phi < 1.618034) by (unfold phi; lra).
  pose proof phi_sqr as Hq.
  assert (HN : 0 < 1 + phi * phi) by nra.
  pose proof (sqrt_lt_R0 _ HN) as HN1.
  pose proof (sqrt_sqrt (1 + phi * phi) (Rlt_le _ _ HN)) as HNN.
  set (N1 := sqrt (1 + phi * phi)) in *.
  set (ke := phi / N1).
  assert (Hke0 : 0 < ke) by (unfold ke; apply Rmult_lt_0_compat; [lra | apply Rinv_0_lt_compat; lra]).
  assert (Hke : ke * ke * (phi + 2) = phi + 1).
  { unfold ke. transitivity (phi * phi * (phi + 2) / (N1 * N1)); [field; lra |].
    rewrite HNN, Hq. field. lra. }
  assert (Hlo : 0.72360679 < ke * ke) by nra.
  assert (Hhi : ke * ke < 0.7236068) by nra.
  split; nra.
Qed.

(** C7, as the code has it.  [icosahedron(r)] scales [r] by the constant
    0.8506507174597755, which is [phi / sqrt (1 + phi^2)] up to 1e-7: at
    its vertex at distance [r] from the origin the field is positive and
    below [1e-7 * r].  [dodecahedron(r)] scales nothing: it is zero at the
    vertex at distance [sqrt 3 / phi * r]. *)
Theorem platonic_vertices (r : R) :
  0 < r ->
  (len (icosahedron_vertex r) = r /\
   exists e : R, 0 < e < 0.0000001 * r /\
     call (icosahedron (Fin r)) (fbatch [icosahedron_vertex r]) = [Fin e]) /\
  (len (dodecahedron_vertex (sqrt 3 / phi * r)) = sqrt 3 / phi * r /\
   call (dodecahedron (Fin r)) (fbatch [dodecahedron_vertex (sqrt 3 / phi * r)])
   = [Fin 0]).
Proof.
  intros Hr. pose proof sqrt3_bounds as H3. pose proof phi_bounds as Hp.
  assert (Hi3 : 0 < / sqrt 3) by (apply Rinv_0_lt_compat; lra).
  assert (Hip : 0 < / phi) by (apply Rinv_0_lt_compat; lra).
  split; split.
  - apply len_icosahedron_vertex. lra.
  - eexists. split; [| apply icosahedron_vertex_value; lra].
    pose proof correction_constant_bounds as [Hlo Hhi].
    set (N1 := sqrt (1 + phi * phi)) in *.
    replace (r * phi / N1 - r * 0.8506507174597755)
      with (r * (phi / N1 - 0.8506507174597755)) by (unfold Rdiv; ring).
    set (g := phi / N1 - 0.8506507174597755) in *.
    set (x := (phi + 1) / (sqrt 3 * phi)).
    assert (Hx : 0 < x < 1).
    { unfold x. split.
      - apply Rmult_lt_0_compat; [lra | apply Rinv_0_lt_compat; nra].
      - apply Rmult_lt_reg_r with (sqrt 3 * phi); [nra |].
        unfold Rdiv. rewrite Rmult_assoc, Rinv_l by nra. nra. }
    assert (Hg : 0 < g < 0.0000001) by (unfold g; lra).
    assert (Hrg : 0 < r * g) by nra.
    assert (Hrg' : r * g < 0.0000001 * r) by nra.
    split; nra.
  - apply len_dodecahedron_vertex. unfold Rdiv. left.
    repeat apply Rmult_lt_0_compat; lra.
  - apply dodecahedron_vertex_zero, Hr.
Qed.

Lemma platonic_vertices_witness :
  (len (icosahedron_vertex 2) = 2 /\
   exists e : R, 0 < e < 0.0000001 * 2 /\
     call (icosahedron (Fin 2)) (fbatch [icosahedron_vertex 2]) = [Fin e]) /\
  (len (dodecahedron_vertex (sqrt 3 / phi * 2)) = sqrt 3 / phi * 2 /\
   call (dodecahedron (Fin 2)) (fbatch [dodecahedron_vertex (sqrt 3 / phi * 2)])
   = [Fin 0]).
Proof. apply (platonic_vertices 2). lra. Defined.

(** C7 as stated fails for the dodecahedron: the vertex of the regular
    dodecahedron at distance 1 from the origin is not on the surface of
    [dodecahedron(1)]. *)
Lemma dodecahedron_vertex_not_zero :
  len (dodecahedron_vertex 1) = 1 /\
  call (dodecahedron (Fin 1)) (fbatch [dodecahedron_vertex 1]) <> [Fin 0].
Proof.
  split; [apply len_dodecahedron_vertex; lra |].
  destruct dodecahedron_unit_vertex as (d & Hd & ->).
  intros H. injection H as H. lra.
Qed.

End PlatonicFacts.

(** ** The circular array *)

Section Angles.
Local Open Scope R_scope.

Lemma hypot_scale (x y : R) :
  x <> 0 -> sqrt (x * x + y * y) = Rabs x * sqrt (1 + (y / x)²).
Proof.
  intros Hx.
  replace (x * x + y * y) with (x² * (1 + (y / x)²)) by (unfold Rsqr; field; exact Hx).
  rewrite sqrt_mult_alt by apply Rle_0_sqr.
  now rewrite sqrt_Rsqr_abs.
Qed.

Lemma sqrt_1_sqr_pos (t : R) : 0 < sqrt (1 + t²).
Proof. apply sqrt_lt_R0. pose proof (Rle_0_sqr t). lra. Qed.

Lemma polar_atan2 (x y : R) :
  (x <> 0 \/ y <> 0) ->
  sqrt (x * x + y * y) * cos (Num.atan2 y x) = x /\
  sqrt (x * x + y * y) * sin (Num.atan2 y x) = y.
Proof.
  intros Hxy. unfold Num.atan2.
  destruct (Rlt_dec 0 x) as [Hx | Hx].
  { rewrite hypot_scale by lra. rewrite cos_atan, sin_atan, Rabs_pos_eq by lra.
    pose proof (sqrt_1_sqr_pos (y / x)) as Hh. split; field; lra. }
  destruct (Rlt_dec x 0) as [Hx' | Hx'].
  { rewrite hypot_scale by lra. rewrite Rabs_left by lra.
    pose proof (sqrt_1_sqr_pos (y / x)) as Hh.
    destruct (Rle_dec 0 y) as [Hy | Hy].
    - rewrite neg_cos, neg_sin, cos_atan, sin_atan. split; field; lra.
    - rewrite cos_minus, sin_minus, cos_PI, sin_PI, cos_atan, sin_atan. split; field; lra. }
  assert (x = 0) by lra. subst x.
  replace (0 * 0 + y * y) with (y²) by (unfold Rsqr; ring).
  rewrite sqrt_Rsqr_abs.
  destruct (Rlt_dec 0 y) as [Hy | Hy].
  { rewrite cos_PI2, sin_PI2, Rabs_pos_eq by lra. split; ring. }
  destruct (Rlt_dec y 0) as [Hy' | Hy'].
  { rewrite cos_neg, sin_neg, cos_PI2, sin_PI2, Rabs_left by lra. split; ring. }
  exfalso. destruct Hxy as [H | H]; [apply H; reflexivity | apply H; lra].
Qed.

Lemma angle_diff (u v : R) :
  cos u = cos v -> sin u = sin v -> exists k : int, u = v + 2 * IZR k * PI.
Proof.
  intros Hc Hs.
  assert (H1 : cos (2 * ((u - v) / 2)) = 1).
  { replace (2 * ((u - v) / 2)) with (u - v) by field.
    rewrite cos_minus, Hc, Hs. pose proof (sin2_cos2 v) as H. unfold Rsqr in H. lra. }
  rewrite cos_2a_sin in H1.
  assert (H0 : sin ((u - v) / 2) = 0).
  { assert (Hq : sin ((u - v) / 2) * sin ((u - v) / 2) = 0) by lra.
    apply Rmult_integral in Hq. destruct Hq; assumption. }
  apply sin_eq_0_0 in H0. destruct H0 as [k Hk]. exists k. lra.
Qed.

Lemma Int_part_shift (r : R) (m : int) : Int_part (r + IZR m) = (Int_part r + m)%Z.
Proof.
  symmetry. apply Int_part_spec. rewrite plus_IZR.
  pose proof (base_Int_part r) as [H1 H2]. lra.
Qed.

Lemma fmod_shift (t da : R) (m : int) :
  0 < da -> Num.fmod (t + IZR m * da) da = Num.fmod t da.
Proof.
  intros Hda. unfold Num.fmod.
  replace ((t + IZR m * da) / da) with (t / da + IZR m) by (field; lra).
  rewrite Int_part_shift, plus_IZR. ring.
Qed.

End Angles.

(** A turn by one cell [2 pi / n] about the z axis keeps the distance to
    the axis, and moves the azimuth by a whole number of cells. *)
Section Turn.
Local Open Scope R_scope.

Lemma turn_hypot (x y t : R) :
  let x' := x * cos t - y * sin t in
  let y' := x * sin t + y * cos t in
  sqrt (x' * x' + y' * y') = sqrt (x * x + y * y).
Proof.
  intros x' y'. f_equal. unfold x', y'.
  pose proof (sin2_cos2 t) as H. unfold Rsqr in H. nsatz.
Qed.

Lemma da_pos (n : int) : (1 <= n)%Z -> 0 < 2 * PI / IZR n.
Proof.
  intros Hn. apply IZR_le in Hn. pose proof PI_RGT_0.
  apply Rmult_lt_0_compat; [lra | apply Rinv_0_lt_compat; lra].
Qed.

Lemma turn_fmod (x y : R) (n : int) :
  (1 <= n)%Z ->
  let da := 2 * PI / IZR n in
  let x' := x * cos da - y * sin da in
  let y' := x * sin da + y * cos da in
  Num.fmod (Num.atan2 y' x') da = Num.fmod (Num.atan2 y x) da.
Proof.
  intros Hn da x' y'.
  pose proof (da_pos n Hn) as Hda. pose proof (turn_hypot x y da) as Hh.
  fold da in Hda. cbv zeta in Hh. fold x' y' in Hh.
  destruct (Req_dec_T x 0) as [Hx | Hx]; [destruct (Req_dec_T y 0) as [Hy | Hy] |].
  { assert (Ex : x' = x) by (unfold x'; rewrite Hx, Hy; ring).
    assert (Ey : y' = y) by (unfold y'; rewrite Hx, Hy; ring).
    now rewrite Ex, Ey. }
  all: assert (Hxy : x <> 0 \/ y <> 0) by tauto.
  all: assert (Hd : 0 < sqrt (x * x + y * y)) by
      (apply sqrt_lt_R0; destruct Hxy; nra).
  all: assert (Hxy' : x' <> 0 \/ y' <> 0) by
      (destruct (Req_dec_T x' 0) as [E1 | E1]; [| tauto];
       destruct (Req_dec_T y' 0) as [E2 | E2]; [| tauto];
       exfalso; rewrite E1, E2 in Hh;
       replace (0 * 0 + 0 * 0) with 0 in Hh by ring; rewrite sqrt_0 in Hh; lra).
  all: destruct (polar_atan2 x y Hxy) as [Pc Ps];
       destruct (polar_atan2 x' y' Hxy') as [Pc' Ps'];
       rewrite Hh in Pc', Ps';
       set (d := sqrt (x * x + y * y)) in *;
       set (th := Num.atan2 y x) in *; set (th' := Num.atan2 y' x') in *.
  all: assert (Hc : cos th' = cos (th + da)) by
      (rewrite cos_plus; apply Rmult_eq_reg_l with d; [| lra];
       rewrite Pc'; unfold x'; rewrite <- Pc at 1; rewrite <- Ps at 1; ring).
  all: assert (Hs : sin th' = sin (th + da)) by
      (rewrite sin_plus; apply Rmult_eq_reg_l with d; [| lra];
       rewrite Ps'; unfold y'; rewrite <- Pc at 1; rewrite <- Ps at 1; ring).
  all: destruct (angle_diff _ _ Hc Hs) as [k Hk].
  all: assert (E : th' = th + IZR (1 + k * n) * da) by
      (rewrite Hk, plus_IZR, mult_IZR; unfold da; apply IZR_le in Hn; field; lra).
  all: rewrite E; apply fmod_shift, Hda.
Qed.

End Turn.

Section CircularArray.
Local Open Scope R_scope.

(** What the closure of [circular_array] computes, row by row. *)
Lemma circular_array_call (other : SDF3) (count offset : num) (p : batch) :
  call (circular_array other count offset) p
  = let da := (Fin 2 * Fin PI / count)%num in
    let other' := translate other (vscale X offset) in
    _min (call other' (map (circular_row da da) p))
         (call other' (map (circular_row da (Fin 0)) p)).
Proof.
  unfold circular_array, call at 1, SDF3_init. cbn [f].
  unfold col0, col1, col2. cbv zeta.
  rewrite !zip_with_map, !map_map, !zip_with_map, !_vec_map.
  f_equal.
  f_equal. apply map_ext. intros [[x y] z]. unfold circular_row. cbn [fst snd].
  destruct (Num.mod_ (Num.arctan2 y x) (Fin 2 * Fin PI / count)%num) as [a |]; [| reflexivity].
  cbn. now rewrite Rminus_0_r.
Qed.

Lemma circular_row_turn (n : int) (shift : num) (q : R * R * R) :
  (1 <= n)%Z ->
  circular_row (Fin (2 * PI / IZR n)) shift (fvec (rotate_about_z (2 * PI / IZR n) q))
  = circular_row (Fin (2 * PI / IZR n)) shift (fvec q).
Proof.
  intros Hn. destruct q as [[x y] z].
  pose proof (da_pos n Hn) as Hda.
  unfold circular_row, rotate_about_z, fvec. cbn [fst snd].
  unfold Num.arctan2, Num.hypot, Num.lift2, Num.mod_.
  destruct (Req_dec_T (2 * PI / IZR n) 0) as [E | _]; [lra |].
  pose proof (turn_fmod x y n Hn) as Hf. pose proof (turn_hypot x y (2 * PI / IZR n)) as Hh.
  cbv zeta in Hf, Hh. rewrite Hf, Hh. reflexivity.
Qed.

Lemma rotate_about_z_back (t : R) (q : R * R * R) :
  rotate_about_z t (rotate_about_z (- t) q) = q.
Proof.
  destruct q as [[x y] z]. unfold rotate_about_z. cbn [fst snd].
  rewrite cos_neg, sin_neg. pose proof (sin2_cos2 t) as H. unfold Rsqr in H.
  repeat apply f_equal2; try reflexivity; nsatz.
Qed.

(** C5: for a count [n >= 1], [circular_array(A, n)] (with any offset)
    gives the same distances on a batch and on the batch turned by
    [2 pi / n] about the z axis, in either direction. *)
Theorem circular_array_period (A : SDF3) (n : int) (offset : num) (ps : list (R * R * R)) :
  (1 <= n)%Z ->
  call (circular_array A (Fin (IZR n)) offset)
       (fbatch (map (rotate_about_z (2 * PI / IZR n)) ps))
  = call (circular_array A (Fin (IZR n)) offset) (fbatch ps) /\
  call (circular_array A (Fin (IZR n)) offset)
       (fbatch (map (rotate_about_z (- (2 * PI / IZR n))) ps))
  = call (circular_array A (Fin (IZR n)) offset) (fbatch ps).
Proof.
  intros Hn. rewrite !circular_array_call. cbv zeta.
  change (Fin 2 * Fin PI)%num with (Fin (2 * PI)).
  assert (Hn0 : IZR n <> 0) by (apply IZR_le in Hn; lra).
  rewrite (div_fin (2 * PI) (IZR n) Hn0).
  unfold fbatch. rewrite !map_map.
  split; f_equal; f_equal; apply map_ext; intros q.
  1, 2: apply circular_row_turn, Hn.
  all: rewrite <- (rotate_about_z_back (2 * PI / IZR n) q) at 2;
    symmetry; apply circular_row_turn, Hn.
Qed.

Lemma circular_array_period_witness :
  call (circular_array (sphere (Fin 1) X) (Fin (IZR 6)) (Fin 2))
       (fbatch (map (rotate_about_z (2 * PI / IZR 6)) [(1, 2, 3)]))
  = call (circular_array (sphere (Fin 1) X) (Fin (IZR 6)) (Fin 2)) (fbatch [(1, 2, 3)]) /\
  call (circular_array (sphere (Fin 1) X) (Fin (IZR 6)) (Fin 2))
       (fbatch (map (rotate_about_z (- (2 * PI / IZR 6))) [(1, 2, 3)]))
  = call (circular_array (sphere (Fin 1) X) (Fin (IZR 6)) (Fin 2)) (fbatch [(1, 2, 3)]).
Proof.
  apply (circular_array_period (sphere (Fin 1) X) 6 (Fin 2) [(1, 2, 3)]). lia.
Defined.

End CircularArray.

(** ** Arrays: what a closure may overwrite *)

Module ArrayFacts.
Import Arrays.

Lemma keeps_ret {A} n (a : A) (Q : A -> Prop) : Q a -> keeps n (mret a) Q.
Proof. intros Ha m Hm. cbn. auto. Qed.

Lemma keeps_bind {A B} n (c : M A) (k : A -> M B) (Q : A -> Prop) (Q' : B -> Prop) :
  keeps n c Q -> (forall a, Q a -> keeps n (k a) Q') -> keeps n (c ≫= k) Q'.
Proof.
  intros Hc Hk m Hm. unfold mbind, M_bind.
  destruct (Hc m Hm) as (Ht & Hl & Hq). destruct (c m) as [a m1]. cbn in *.
  destruct (Hk a Hq m1 ltac:(lia)) as (Ht' & Hl' & Hq').
  split; [congruence | split; [lia | exact Hq']].
Qed.

Lemma keeps_weaken {A} n (c : M A) (Q Q' : A -> Prop) :
  keeps n c Q -> (forall a, Q a -> Q' a) -> keeps n c Q'.
Proof. intros Hc HQ m Hm. destruct (Hc m Hm) as (? & ? & ?). auto. Qed.

Lemma keeps_load n (a : ndarray) : keeps n (load a) (fun _ => True).
Proof. intros m Hm. cbn. auto. Qed.

Lemma keeps_alloc n (b : buffer) : keeps n (alloc b) (fun a => n <= base a).
Proof.
  intros m Hm. cbn. rewrite take_app_le by lia. rewrite length_app. cbn.
  split; [reflexivity | split; lia].
Qed.

Lemma take_alter_ge {A} (g : A -> A) (n i : nat) (l : list A) :
  n <= i -> take n (alter g i l) = take n l.
Proof.
  intros Hi. apply list_eq. intros j.
  destruct (decide (j < n)) as [Hj | Hj].
  - rewrite !lookup_take_lt by lia. apply list_lookup_alter_ne. lia.
  - rewrite !lookup_take_ge by lia. reflexivity.
Qed.

Lemma keeps_setitem_mask n (a : ndarray) w v :
  n <= base a -> keeps n (setitem_mask a w v) (fun _ => True).
Proof.
  intros Ha m Hm. unfold setitem_mask. cbn [fst snd].
  rewrite take_alter_ge by exact Ha. rewrite length_alter. auto.
Qed.

Lemma keeps_setitem_col n (a : ndarray) j z :
  n <= base a -> keeps n (setitem_col a j z) (fun _ => True).
Proof.
  intros Ha m Hm. unfold setitem_col. cbn [fst snd].
  rewrite take_alter_ge by exact Ha. rewrite length_alter. auto.
Qed.

Lemma keeps_call n (g : ndarray -> M ndarray) (q : ndarray) :
  allocates_only g -> keeps n (g q) (fun r => n <= base r).
Proof.
  intros Hg m Hm. destruct (Hg q m) as [[k Hk] Hb].
  rewrite Hk at 1 2. rewrite take_app_le, length_app by lia.
  split; [reflexivity | split; lia].
Qed.

Lemma keeps_allocates_only (g : ndarray -> M ndarray) :
  (forall n p, keeps n (g p) (fun r => n <= base r)) -> allocates_only g.
Proof.
  intros Hg p m. destruct (Hg (length m) p m (Nat.le_refl _)) as (Ht & Hl & Hb).
  split; [| exact Hb].
  rewrite firstn_all in Ht.
  pose proof (prefix_take (g p m).2 (length m)) as Hp. now rewrite Ht in Hp.
Qed.

(** One step of a closure: a read, an allocation, an assignment into an
    array allocated by the closure, or a call of a wrapped field. *)
Ltac keeps_step :=
  first
    [ progress (cbv zeta)
    | apply keeps_ret; unfold reshape, col; cbn; lia
    | eapply keeps_bind; [apply keeps_load | intros ? _]
    | eapply keeps_bind; [apply keeps_alloc | let H := fresh "Hfresh" in intros ? H; cbv beta in H]
    | eapply keeps_bind; [apply keeps_setitem_mask; unfold reshape, col; cbn; lia | intros ? _]
    | eapply keeps_bind; [apply keeps_setitem_col; unfold reshape, col; cbn; lia | intros ? _]
    | eapply keeps_bind; [apply keeps_call; assumption | let H := fresh "Hfresh" in intros ? H; cbv beta in H]
    | apply keeps_alloc
    | apply keeps_call; assumption ].

Lemma pyramid_allocates_only (h : num) : allocates_only (pyramid h).
Proof.
  apply keeps_allocates_only. intros n p. unfold pyramid.
  repeat keeps_step.
Qed.

Lemma wrap_around_allocates_only other x0 x1 r e :
  allocates_only other -> allocates_only (wrap_around other x0 x1 r e).
Proof.
  intros Ho. apply keeps_allocates_only. intros n p. unfold wrap_around. cbv zeta.
  repeat keeps_step.
Qed.

Lemma slice_allocates_only a b :
  allocates_only a -> allocates_only b -> allocates_only (slice a b).
Proof.
  intros Ha Hb. apply keeps_allocates_only. intros n p. unfold slice.
  repeat keeps_step.
Qed.

Lemma allocates_only_input (g : ndarray -> M ndarray) :
  allocates_only g ->
  forall (p : ndarray) (m : mem) (b : buffer),
    m !! base p = Some b -> (g p m).2 !! base p = Some b.
Proof.
  intros Hg p m b Hb. destruct (Hg p m) as [Hp _].
  eapply prefix_lookup_Some; eassumption.
Qed.

(** The property tells closures apart: one that assigns into its
    argument does not have it. *)
Lemma overwrite_input_writes : ~ allocates_only overwrite_input.
Proof.
  intros H.
  pose proof (allocates_only_input _ H (mk_ndarray 0 Whole)
                [[[Fin 1; Fin 2; NaN]]] [[Fin 1; Fin 2; NaN]] eq_refl) as Hb.
  cbv in Hb. discriminate Hb.
Qed.

(** C10: the closures that assign into an array ([pyramid],
    [wrap_around], [slice]) write to no array that existed before the
    call, given that the fields they wrap do not; so the batch they are
    given holds the same values after the call. *)
Theorem input_batch_unchanged :
  (forall g, allocates_only g ->
     forall p m b, m !! base p = Some b -> (g p m).2 !! base p = Some b) /\
  (forall h, allocates_only (pyramid h)) /\
  (forall other x0 x1 r e,
     allocates_only other -> allocates_only (wrap_around other x0 x1 r e)) /\
  (forall a b,
     allocates_only a -> allocates_only b -> allocates_only (slice a b)).
Proof.
  split; [exact allocates_only_input |].
  split; [exact pyramid_allocates_only |].
  split; [exact wrap_around_allocates_only | exact slice_allocates_only].
Qed.

Lemma input_batch_unchanged_witness :
  (slice (pyramid (Fin 1)) (wrap_around (pyramid (Fin 1)) (Fin 0) (Fin 1) None (fun t => t))
     (mk_ndarray 0 Whole) [[[Fin 1; Fin 2; Fin 3]]]).2 !! base (mk_ndarray 0 Whole)
  = Some [[Fin 1; Fin 2; Fin 3]].
Proof.
  destruct input_batch_unchanged as (Hin & Hp & Hw & Hs).
  exact (Hin _ (Hs _ _ (Hp (Fin 1)) (Hw _ (Fin 0) (Fin 1) None (fun t => t) (Hp (Fin 1))))
             (mk_ndarray 0 Whole) [[[Fin 1; Fin 2; Fin 3]]] [[Fin 1; Fin 2; Fin 3]]
             eq_refl).
Defined.

End ArrayFacts.

(** ** Dispatch *)

Section DispatchFacts.

(** C2, as the code has it: for a name that is no attribute of the Field
    itself, access goes to the registry; an unregistered name raises a
    bare [AttributeError], a registered one gives the partial application
    of its wrapper to the Field. *)
Theorem getattr_dispatch (_ops : gmap string operator) (self : SDF3) (name : string) :
  instance_attribute self name = None ->
  name ∉ methods ->
  match _ops !! name with
  | None => getattr _ops self name = inl (AttributeError None)
  | Some g =>
      exists p, getattr _ops self name = inr (AOperator p) /\
                forall more, call_partial p more = g (VField self :: more)
  end.
Proof.
  intros Hi Hm. unfold getattr. rewrite Hi.
  destruct (decide (name ∈ methods)) as [Hin | _]; [contradiction |].
  unfold __getattr__. destruct (_ops !! name) as [g |]; [| reflexivity].
  eexists. split; [reflexivity |]. intros more. reflexivity.
Qed.

Lemma getattr_dispatch_witness :
  (exists p, getattr embedded_ops (sphere (Fin 1) ORIGIN) "translate" = inr (AOperator p) /\
             forall more, call_partial p more
                          = translate_op (VField (sphere (Fin 1) ORIGIN) :: more)) /\
  getattr embedded_ops (sphere (Fin 1) ORIGIN) "volume" = inl (AttributeError None).
Proof.
  split.
  - apply (getattr_dispatch embedded_ops (sphere (Fin 1) ORIGIN) "translate").
    + reflexivity.
    + vm_compute. intros H. repeat (apply elem_of_cons in H as [H | H]; [discriminate |]).
      apply elem_of_nil in H. exact H.
  - apply (getattr_dispatch embedded_ops (sphere (Fin 1) ORIGIN) "volume").
    + reflexivity.
    + intros H. repeat (apply elem_of_cons in H as [H | H]; [discriminate |]).
      apply elem_of_nil in H. exact H.
Defined.

(** C2 as stated fails twice: the error for an unregistered name is of
    the attribute-not-found class, and an unregistered name that is an
    attribute of the Field, such as [f], is found. *)
Lemma unregistered_name_errors :
  (embedded_ops !! "volume"%string = None /\
   exists e, getattr embedded_ops (sphere (Fin 1) ORIGIN) "volume" = inl e /\
             attribute_not_found e) /\
  (embedded_ops !! "f"%string = None /\
   exists g, getattr embedded_ops (sphere (Fin 1) ORIGIN) "f" = inr (AFunction g)).
Proof.
  split; split; try reflexivity.
  - exists (AttributeError None). split; [reflexivity | now exists None].
  - eexists. reflexivity.
Qed.

End DispatchFacts.

(** ** Fields as objects: what changes *)

Module LifecycleFacts.
Import Lifecycle.

Lemma new_spec (g : batch -> list num) (h : store) :
  h !! (new g h).1 = None /\
  (new g h).2 !! (new g h).1 = Some (SDF3_init g) /\
  h ⊆ (new g h).2.
Proof.
  unfold new. cbn [fst snd].
  assert (Hf : h !! fresh (dom h) = None) by (apply not_elem_of_dom, is_fresh).
  split; [exact Hf |]. split; [apply lookup_insert_eq | now apply insert_subseteq].
Qed.

(** The wrapper of [op3] creates one Field and changes none, as long as
    the body it wraps changes none. *)
Lemma op3_spec body (h h' : store) (r : ref) :
  (forall g h1, body h = Some (g, h1) -> h ⊆ h1) ->
  op3 body h = Some (r, h') ->
  h !! r = None /\ h ⊆ h'.
Proof.
  intros Hb. unfold op3. destruct (body h) as [[g h1] |] eqn:E; [| discriminate].
  intros H. injection H as <- <-. specialize (Hb g h1 eq_refl).
  destruct (new_spec g h1) as (Hn & _ & Hs).
  unfold new in *. cbn [fst snd] in *. split.
  - destruct (h !! fresh (dom h1)) as [o |] eqn:Eo; [| reflexivity].
    eapply lookup_weaken in Eo; [| exact Hb]. congruence.
  - etrans; eassumption.
Qed.

Lemma translate_body_spec other offset (h : store) g h1 :
  translate_body other offset h = Some (g, h1) -> h ⊆ h1.
Proof.
  unfold translate_body. destruct (h !! other); [| discriminate].
  intros H. now injection H as _ <-.
Qed.

Lemma circular_array_body_spec other count offset (h : store) g h1 :
  circular_array_body other count offset h = Some (g, h1) -> h ⊆ h1.
Proof.
  unfold circular_array_body. destruct (h !! other); [| discriminate].
  destruct (op3 _ h) as [[r h2] |] eqn:E; [| discriminate].
  intros H. injection H as _ <-.
  eapply op3_spec in E; [apply E |]. intros g' h'. apply translate_body_spec.
Qed.

(** C3, as the code has it.  Creating a Field, through [SDF3] or through
    the wrapper of an operator, and evaluating one leave every existing
    Field as it is.  [k] creates nothing: it returns the receiver, whose
    [_k] it has overwritten in place; [f] stays. *)
Theorem field_lifecycle :
  (forall g (h : store),
     h !! (new g h).1 = None /\ h ⊆ (new g h).2) /\
  (forall body (h h' : store) r,
     (forall g h1, body h = Some (g, h1) -> h ⊆ h1) ->
     op3 body h = Some (r, h') -> h !! r = None /\ h ⊆ h') /\
  (forall self p (h h' : store) d,
     call_ref self p h = Some (d, h') -> h' = h) /\
  (forall self kv (h h' : store) r,
     k self kv h = Some (r, h') ->
     r = self /\
     exists o, h !! self = Some o /\
               h' = <[self := mkSDF3 (f o) (Some kv)]> h).
Proof.
  split; [intros g h; destruct (new_spec g h) as (? & _ & ?); auto |].
  split; [exact op3_spec |].
  split.
  - intros self p h h' d. unfold call_ref. destruct (h !! self); [| discriminate].
    intros H. now injection H as _ <-.
  - intros self kv h h' r. unfold k. destruct (h !! self) as [o |] eqn:E; [| discriminate].
    intros H. injection H as <- <-. split; [reflexivity |]. now exists o.
Qed.

Lemma field_lifecycle_witness :
  ({[0 := sphere (Fin 1) ORIGIN]} : store) !! 1 = None /\
  ({[0 := sphere (Fin 1) ORIGIN]} : store)
    ⊆ <[1 := translate (sphere (Fin 1) ORIGIN) X]> {[0 := sphere (Fin 1) ORIGIN]}.
Proof.
  destruct field_lifecycle as (_ & Hop & _ & _).
  apply (Hop (translate_body 0 X) {[0 := sphere (Fin 1) ORIGIN]}
             (<[1 := translate (sphere (Fin 1) ORIGIN) X]> {[0 := sphere (Fin 1) ORIGIN]}) 1).
  - intros g h1. apply translate_body_spec.
  - reflexivity.
Defined.

(** C3 as stated fails for [k]: called on the sphere stored at 0, it
    returns 0 itself, and the Field at 0 is no longer what it was. *)
Lemma k_mutates_field :
  exists h' : store,
    k 0 (Some (Fin 0.25)) {[0 := sphere (Fin 1) ORIGIN]} = Some (0, h') /\
    h' !! 0 <> ({[0 := sphere (Fin 1) ORIGIN]} : store) !! 0.
Proof.
  eexists. split; [reflexivity |].
  rewrite lookup_insert_eq, lookup_singleton_eq.
  intros H. injection H as H. discriminate H.
Qed.

End LifecycleFacts.

(** * Further properties of the source *)

(** ** The perpendicular axis *)

Section Perpendicular.
Local Open Scope R_scope.

Lemma perpendicular_zero :
  _perpendicular (fvec (0, 0, 0)) = inl (ValueError "zero vector").
Proof.
  unfold _perpendicular, fvec. cbn [fst snd].
  rewrite !eqb_fin_true by reflexivity. reflexivity.
Qed.

Lemma perpendicular_nonzero (v : R * R * R) :
  v <> (0, 0, 0) ->
  exists w, _perpendicular (fvec v) = inr (fvec w) /\
            w <> (0, 0, 0) /\ rdot v w = 0.
Proof.
  destruct v as [[v0 v1] v2].
  intros Hv. unfold _perpendicular, fvec. cbn [fst snd].
  destruct (Req_dec_T v1 0) as [E1 | N1]; [destruct (Req_dec_T v2 0) as [E2 | N2] |].
  - rewrite (eqb_fin_true v1 0 E1), (eqb_fin_true v2 0 E2). cbn [andb].
    assert (N0 : v0 <> 0) by (intros ->; apply Hv; now rewrite E1, E2).
    rewrite (eqb_fin_false v0 0 N0).
    exists (rcross (v0, v1, v2) (0, 1, 0)). split; [reflexivity |]. cbn. split.
    + intros H. injection H as _ _ H. lra.
    + ring.
  - rewrite (eqb_fin_true v1 0 E1), (eqb_fin_false v2 0 N2). cbn [andb].
    exists (rcross (v0, v1, v2) (1, 0, 0)). split; [reflexivity |]. cbn. split.
    + intros H. injection H as _ H _. lra.
    + ring.
  - rewrite (eqb_fin_false v1 0 N1). cbn [andb].
    exists (rcross (v0, v1, v2) (1, 0, 0)). split; [reflexivity |]. cbn. split.
    + intros H. injection H as _ _ H. lra.
    + ring.
Qed.

(** [_perpendicular] raises its [ValueError] for the zero vector only;
    for any other finite vector it returns a non-zero vector at a right
    angle to it. *)
Theorem perpendicular_spec (v : R * R * R) :
  (v = (0, 0, 0) -> _perpendicular (fvec v) = inl (ValueError "zero vector")) /\
  (v <> (0, 0, 0) ->
   exists w, _perpendicular (fvec v) = inr (fvec w) /\
             w <> (0, 0, 0) /\ rdot v w = 0).
Proof.
  split.
  - intros ->. apply perpendicular_zero.
  - apply perpendicular_nonzero.
Qed.

Lemma perpendicular_spec_witness :
  _perpendicular (fvec (0, 0, 0)) = inl (ValueError "zero vector") /\
  exists w, _perpendicular (fvec (2, 0, 0)) = inr (fvec w) /\
            w <> (0, 0, 0) /\ rdot (2, 0, 0) w = 0.
Proof.
  split.
  - apply (proj1 (perpendicular_spec (0, 0, 0))). reflexivity.
  - apply (proj2 (perpendicular_spec (2, 0, 0))). intros H. inversion H. lra.
Defined.

End Perpendicular.

(** ** Aligning directions *)

Section RotateTo.
Local Open Scope R_scope.

Lemma dot_eqb_finite (a b : vec) (c : R) :
  Num.eqb (dot b a) (Fin c) = true ->
  exists u w, a = fvec u /\ b = fvec w /\ rdot w u = c.
Proof.
  destruct a as [[[a0 |] [a1 |]] [a2 |]], b as [[[b0 |] [b1 |]] [b2 |]];
    cbn; try discriminate.
  destruct (Req_dec_T _ c) as [E | _]; [| discriminate].
  intros _. exists (a0, a1, a2), (b0, b1, b2). auto.
Qed.



(** [rotate_to] never raises: the [ValueError] of [_perpendicular] is out
    of reach, because a normalised vector whose dot product is -1 is not
    the zero vector.  This holds for all arguments, nan included. *)
Theorem rotate_to_no_error (other : SDF3) (a b : vec) :
  exists s, rotate_to other a b = inr s.
Proof.
  unfold rotate_to.
  destruct (Num.eqb (dot (_normalize b) (_normalize a)) (Fin 1)); [eauto |].
  destruct (Num.eqb (dot (_normalize b) (_normalize a)) (Fin (-1))) eqn:E; [| eauto].
  apply dot_eqb_finite in E. destruct E as (u & w & -> & _ & Hd).
  assert (Hu : u <> (0, 0, 0)).
  { intros ->. destruct w as [[w0 w1] w2]. cbn in Hd. lra. }
  destruct (perpendicular_nonzero u Hu) as (p & -> & _). eauto.
Qed.







End RotateTo.

(** ** Rotations compose and keep lengths *)

Section RotateMore.
Local Open Scope R_scope.

(** For a non-zero axis, [rotate] multiplies each finite row by
    [rot_matrix] of the unit axis. *)
Lemma rotate_finite (A : SDF3) (v : R * R * R) (a : R) :
  v <> (0, 0, 0) ->
  rotate A (Fin a) (fvec v)
  = SDF3_init (fun p => call A (map (fun r => vecmat r (fmat (rot_matrix (unitv v) a))) p)).
Proof.
  intros Hv. unfold rotate. rewrite normalize_fin by assumption.
  destruct (unitv v) as [[x y] z]. unfold rot_matrix. cbn [fvec fst snd Num.sin Num.cos Num.lift1].
  now rewrite rotation_array_fin, transpose_fin.
Qed.

Lemma rvecmat_rmatmul (p : R * R * R) (M N : rmat) :
  rvecmat (rvecmat p M) N = rvecmat p (rmatmul M N).
Proof.
  destruct p as [[p0 p1] p2].
  destruct M as [[[[m00 m01] m02] [[m10 m11] m12]] [[m20 m21] m22]].
  destruct N as [[[[n00 n01] n02] [[n10 n11] n12]] [[n20 n21] n22]].
  cbv [rvecmat rmatmul rtranspose rdot]. vec_eq; ring.
Qed.

Lemma rot_matrix_add (u : R * R * R) (a b : R) :
  sqlen u = 1 ->
  rmatmul (rot_matrix u b) (rot_matrix u a) = rot_matrix u (a + b).
Proof.
  destruct u as [[x y] z]. unfold sqlen. cbn [fst snd]. intros Hu.
  unfold rot_matrix. cbn [fst snd]. rewrite sin_plus, cos_plus.
  pose proof (sin2_cos2 a) as Ha. pose proof (sin2_cos2 b) as Hb.
  unfold Rsqr in Ha, Hb.
  set (sa := sin a) in *. set (ca := cos a) in *.
  set (sb := sin b) in *. set (cb := cos b) in *.
  cbv [rmatmul rvecmat rtranspose rdot rrotation_array].
  vec_eq; nsatz.
Qed.

Lemma rot_matrix_length (u p : R * R * R) (a : R) :
  sqlen u = 1 -> sqlen (rvecmat p (rot_matrix u a)) = sqlen p.
Proof.
  destruct u as [[x y] z], p as [[p0 p1] p2]. unfold sqlen. cbn [fst snd]. intros Hu.
  unfold rot_matrix. cbn [fst snd].
  pose proof (sin2_cos2 a) as Ha. unfold Rsqr in Ha.
  set (sa := sin a) in *. set (ca := cos a) in *.
  cbv [rvecmat rtranspose rdot rrotation_array fst snd]. nsatz.
Qed.

(** Two rotations about one non-zero axis compose into the rotation by
    the sum of the angles. *)
Theorem rotate_compose (A : SDF3) (v : R * R * R) (a b : R) (ps : list (R * R * R)) :
  v <> (0, 0, 0) ->
  call (rotate (rotate A (Fin a) (fvec v)) (Fin b) (fvec v)) (fbatch ps)
  = call (rotate A (Fin (a + b)) (fvec v)) (fbatch ps).
Proof.
  intros Hv. rewrite !rotate_finite by assumption.
  unfold call, SDF3_init, fbatch. cbn [f]. f_equal.
  rewrite !map_map. apply map_ext. intros p.
  rewrite !vecmat_fin, rvecmat_rmatmul, rot_matrix_add; [reflexivity |].
  apply unit_sqlen, Hv.
Qed.

Lemma rotate_compose_witness :
  call (rotate (rotate (sphere (Fin 1) X) (Fin 1) (fvec (1, 2, 2))) (Fin 2) (fvec (1, 2, 2)))
       (fbatch [(3, 0, 4)])
  = call (rotate (sphere (Fin 1) X) (Fin (1 + 2)) (fvec (1, 2, 2))) (fbatch [(3, 0, 4)]).
Proof.
  apply (rotate_compose (sphere (Fin 1) X) (1, 2, 2) 1 2 [(3, 0, 4)]).
  intros H. inversion H. lra.
Defined.

(** A rotation about a non-zero axis keeps the distance to the origin: a
    sphere centred there is left as it is. *)
Theorem rotate_sphere (r : num) (v : R * R * R) (a : R) (ps : list (R * R * R)) :
  v <> (0, 0, 0) ->
  call (rotate (sphere r ORIGIN) (Fin a) (fvec v)) (fbatch ps)
  = call (sphere r ORIGIN) (fbatch ps).
Proof.
  intros Hv. rewrite rotate_finite by assumption.
  unfold sphere, fbatch, _length. unfold call, SDF3_init. cbn [f].
  rewrite !List.map_map. apply List.map_ext. intros p.
  change ORIGIN with (fvec (0, 0, 0)).
  rewrite vecmat_fin, !vsub_fin, !norm_fin. f_equal. unfold len. do 2 f_equal.
  assert (Hz : forall q, sqlen (rsub q (0, 0, 0)) = sqlen q).
  { intros [[q0 q1] q2]. unfold sqlen. cbn. ring. }
  rewrite !Hz. apply rot_matrix_length, unit_sqlen, Hv.
Qed.

Lemma rotate_sphere_witness :
  call (rotate (sphere (Fin 2) ORIGIN) (Fin 1) (fvec (1, 2, 2))) (fbatch [(3, 0, 4)])
  = call (sphere (Fin 2) ORIGIN) (fbatch [(3, 0, 4)]).
Proof.
  apply (rotate_sphere (Fin 2) (1, 2, 2) 1 [(3, 0, 4)]). intros H. inversion H. lra.
Defined.

End RotateMore.

(** ** Mirroring is the reflection across the plane *)

Section MirrorPlane.
Local Open Scope R_scope.

(** The matrix that [mirror] composes, for the unit normal [(u0, u1, u2)]
    not parallel to the z axis: [h] is the length of [UP x u], [I] its
    inverse, and [h] the sine and [u2] the cosine of the angle. *)
Lemma mirror_matrix_reflects (u0 u1 u2 h I : R) (cen q : R * R * R) :
  u0 * u0 + u1 * u1 + u2 * u2 = 1 ->
  h * h = u0 * u0 + u1 * u1 ->
  I * h = 1 ->
  let x := (0 * u2 - 1 * u1) * I in
  let y := (1 * u0 - 0 * u2) * I in
  let z := (0 * u1 - 0 * u0) * I in
  let M := rmatmul (rmatmul (rtranspose (rrotation_array x y z h u2))
                            (rtranspose rflip_z))
                   (rtranspose (rrotation_array x y z (- h) u2)) in
  radd (rvecmat (rsub q cen) M) cen = reflect_point (u0, u1, u2) cen q.
Proof.
  intros Hu Hh HI x y z M. destruct cen as [[c0 c1] c2], q as [[q0 q1] q2].
  unfold M, x, y, z.
  cbv [rmatmul rvecmat rtranspose rdot rrotation_array rflip_z radd rsub
       reflect_point rscale fst snd].
  vec_eq; nsatz.
Qed.

Lemma flip_reflects (u0 u1 u2 : R) (cen q : R * R * R) :
  u0 * u0 + u1 * u1 + u2 * u2 = 1 ->
  u2 = 1 \/ u2 = -1 ->
  radd (rvecmat (rsub q cen) rflip_z) cen = reflect_point (u0, u1, u2) cen q.
Proof.
  intros Hu H2. destruct cen as [[c0 c1] c2], q as [[q0 q1] q2].
  assert (H0 : u0 = 0) by (destruct H2; nra).
  assert (H1 : u1 = 0) by (destruct H2; nra).
  subst u0 u1.
  cbv [rvecmat rtranspose rdot rflip_z radd rsub reflect_point rscale fst snd].
  destruct H2 as [-> | ->]; vec_eq; ring.
Qed.

(** For a non-zero axis, [mirror] hands to the wrapped field the mirror
    image of every row across the plane through the centre whose normal
    is the axis. *)
Lemma mirror_row (v cen : R * R * R) :
  v <> (0, 0, 0) ->
  exists g : vec -> vec,
    (forall q, g (fvec q) = fvec (reflect_point (unitv v) cen q)) /\
    (forall A, mirror A (fvec v) (fvec cen)
               = SDF3_init (fun p => call A (map g p))) /\
    (forall A, mirror_copy A (fvec v) (fvec cen)
               = SDF3_init (fun p => _min (call A (map g p)) (call A p))).
Proof.
  intros Hv. unfold mirror, mirror_copy. rewrite normalize_fin by assumption.
  pose proof (unit_sqlen v Hv) as Hu.
  destruct (unitv v) as [[u0 u1] u2] eqn:Eu.
  change UP with (fvec (0, 0, 1)). rewrite dot_fin, cross_fin.
  unfold sqlen in Hu. cbn [fst snd] in Hu.
  assert (Hflip : u2 = 1 \/ u2 = -1 ->
            forall q, vadd (vecmat (vsub (fvec q) (fvec cen)) flip_z) (fvec cen)
                      = fvec (reflect_point (u0, u1, u2) cen q)).
  { intros H2 q. rewrite flip_z_fin, vsub_fin, vecmat_fin, vadd_fin.
    f_equal. now apply flip_reflects. }
  destruct (Req_dec_T (rdot (0, 0, 1) (u0, u1, u2)) 1) as [E1 | N1].
  { rewrite (eqb_fin_true _ _ E1). cbn [orb]. eexists. split; [| split; intros A; reflexivity].
    apply Hflip. cbn in E1. lra. }
  rewrite (eqb_fin_false _ _ N1).
  destruct (Req_dec_T (rdot (0, 0, 1) (u0, u1, u2)) (-1)) as [E2 | N2].
  { rewrite (eqb_fin_true _ _ E2). cbn [orb]. eexists. split; [| split; intros A; reflexivity].
    apply Hflip. cbn in E2. lra. }
  rewrite (eqb_fin_false _ _ N2). cbn [orb].
  cbn [rdot] in N1, N2 |- *.
  assert (Hd : -1 <= 0 * u0 + 0 * u1 + 1 * u2 <= 1) by (split; nra).
  rewrite (arccos_fin _ Hd).
  assert (Hw : rcross (0, 0, 1) (u0, u1, u2) <> (0, 0, 0)).
  { cbn [rcross]. intros H. injection H as Ha Hb _.
    assert (u0 = 0) by lra. assert (u1 = 0) by lra. subst u0 u1.
    assert (Hz : (u2 - 1) * (u2 + 1) = 0) by nra.
    apply Rmult_integral in Hz. destruct Hz; [apply N1 | apply N2]; lra. }
  rewrite (normalize_fin _ Hw). unfold unitv.
  pose proof (len_pos _ Hw) as Hl. pose proof (len_sqr (rcross (0, 0, 1) (u0, u1, u2))) as Hq.
  set (h := len (rcross (0, 0, 1) (u0, u1, u2))) in *.
  unfold sqlen in Hq. cbn [rcross fst snd] in Hq |- *.
  cbn [fvec fst snd Num.sin Num.cos Num.neg Num.lift1].
  rewrite sin_neg, cos_neg, cos_acos, sin_acos by exact Hd.
  assert (Hs : sqrt (1 - (0 * u0 + 0 * u1 + 1 * u2)²) = h).
  { apply sqrt_lem_1; [| lra |]; unfold Rsqr; nra. }
  rewrite Hs.
  replace (0 * u0 + 0 * u1 + 1 * u2) with u2 by ring.
  rewrite !rotation_array_fin, flip_z_fin, !transpose_fin, !matmul_fin.
  eexists. split; [| split; intros A; reflexivity].
  intros q. cbv beta. rewrite vsub_fin, vecmat_fin, vadd_fin. f_equal.
  unfold Rdiv.
  apply (mirror_matrix_reflects u0 u1 u2 h (/ h) cen q Hu); [nra | field; lra].
Qed.

End MirrorPlane.

Section MirrorCopy.
Local Open Scope R_scope.

Lemma minimum_comm (a b : num) : Num.minimum a b = Num.minimum b a.
Proof. destruct a, b; cbn; try reflexivity. now rewrite Rmin_comm. Qed.

Lemma _min_comm (a b : list num) : _min a b = _min b a.
Proof.
  revert b. induction a as [| x a IH]; intros [| y b]; cbn; try reflexivity.
  unfold _min in IH. now rewrite IH, minimum_comm.
Qed.

Lemma reflect_point_twice (u cen q : R * R * R) :
  sqlen u = 1 -> reflect_point u cen (reflect_point u cen q) = q.
Proof.
  destruct u as [[u0 u1] u2], cen as [[c0 c1] c2], q as [[q0 q1] q2].
  unfold sqlen. cbn [fst snd]. intros Hu.
  cbv [reflect_point rsub rscale rdot fst snd]. vec_eq; nsatz.
Qed.

(** [mirror] is the reflection across the plane through the centre with
    the axis as normal: for a non-zero axis it evaluates the wrapped
    field at the mirror image of each point. *)
Theorem mirror_reflects (A : SDF3) (v cen : R * R * R) (ps : list (R * R * R)) :
  v <> (0, 0, 0) ->
  call (mirror A (fvec v) (fvec cen)) (fbatch ps)
  = call A (fbatch (map (reflect_point (unitv v) cen) ps)).
Proof.
  intros Hv. destruct (mirror_row v cen Hv) as (g & Hg & Hm & _).
  rewrite Hm. unfold call, SDF3_init, fbatch. cbn [f]. f_equal.
  rewrite !List.map_map. apply List.map_ext. exact Hg.
Qed.

Lemma mirror_reflects_witness :
  call (mirror (sphere (Fin 1) X) (fvec (1, 1, 0)) (fvec (0, 2, 0))) (fbatch [(1, 2, 3)])
  = call (sphere (Fin 1) X)
         (fbatch (map (reflect_point (unitv (1, 1, 0)) (0, 2, 0)) [(1, 2, 3)])).
Proof.
  apply (mirror_reflects (sphere (Fin 1) X) (1, 1, 0) (0, 2, 0) [(1, 2, 3)]).
  intros H. inversion H. lra.
Defined.

(** [mirror_copy] is the pointwise minimum of the mirrored field and the
    field itself, and it is symmetric: it takes the same values on a
    batch and on its mirror image. *)
Theorem mirror_copy_symmetric (A : SDF3) (v cen : R * R * R) (ps : list (R * R * R)) :
  v <> (0, 0, 0) ->
  call (mirror_copy A (fvec v) (fvec cen)) (fbatch ps)
  = _min (call (mirror A (fvec v) (fvec cen)) (fbatch ps)) (call A (fbatch ps)) /\
  call (mirror_copy A (fvec v) (fvec cen))
       (fbatch (map (reflect_point (unitv v) cen) ps))
  = call (mirror_copy A (fvec v) (fvec cen)) (fbatch ps).
Proof.
  intros Hv. destruct (mirror_row v cen Hv) as (g & Hg & Hm & Hc).
  rewrite Hm, Hc. unfold call, SDF3_init. cbn [f]. split; [reflexivity |].
  assert (Hgb : forall qs, map g (fbatch qs) = fbatch (map (reflect_point (unitv v) cen) qs)).
  { intros qs. unfold fbatch. rewrite !List.map_map. apply List.map_ext. exact Hg. }
  rewrite !Hgb, List.map_map.
  assert (Hid : map (fun q => reflect_point (unitv v) cen (reflect_point (unitv v) cen q)) ps = ps).
  { rewrite <- (List.map_id ps) at 2. apply List.map_ext. intros q.
    apply reflect_point_twice, unit_sqlen, Hv. }
  rewrite Hid. apply _min_comm.
Qed.

Lemma mirror_copy_symmetric_witness :
  call (mirror_copy (sphere (Fin 1) X) (fvec (1, 1, 0)) (fvec (0, 2, 0))) (fbatch [(1, 2, 3)])
  = _min (call (mirror (sphere (Fin 1) X) (fvec (1, 1, 0)) (fvec (0, 2, 0))) (fbatch [(1, 2, 3)]))
         (call (sphere (Fin 1) X) (fbatch [(1, 2, 3)])) /\
  call (mirror_copy (sphere (Fin 1) X) (fvec (1, 1, 0)) (fvec (0, 2, 0)))
       (fbatch (map (reflect_point (unitv (1, 1, 0)) (0, 2, 0)) [(1, 2, 3)]))
  = call (mirror_copy (sphere (Fin 1) X) (fvec (1, 1, 0)) (fvec (0, 2, 0))) (fbatch [(1, 2, 3)]).
Proof.
  apply (mirror_copy_symmetric (sphere (Fin 1) X) (1, 1, 0) (0, 2, 0) [(1, 2, 3)]).
  intros H. inversion H. lra.
Defined.

End MirrorCopy.

(** ** Scaling *)

Section Scale.
Local Open Scope R_scope.

Lemma pymin_same (k : R) : pymin (Fin k) (pymin (Fin k) (Fin k)) = Fin k.
Proof.
  unfold pymin, num_ltb. destruct (Rlt_dec k k) as [H | _]; [lra |].
  destruct (Rlt_dec k k) as [H | _]; [lra | reflexivity].
Qed.

Lemma vdiv_fin (p : R * R * R) (k : R) :
  k <> 0 ->
  vdiv (fvec p) (Fin k, Fin k, Fin k) = fvec (p.1.1 / k, p.1.2 / k, p.2 / k).
Proof.
  intros Hk. destruct p as [[p0 p1] p2]. unfold vdiv, vzip, fvec. cbn [fst snd].
  now rewrite !div_fin by assumption.
Qed.

Lemma len_div (p : R * R * R) (k : R) :
  0 < k -> len (p.1.1 / k, p.1.2 / k, p.2 / k) = len p / k.
Proof.
  intros Hk. destruct p as [[p0 p1] p2]. unfold len. cbn [fst snd].
  pose proof (sqlen_nonneg (p0, p1, p2)) as Hs.
  pose proof (sqrt_sqrt _ Hs) as Hq. pose proof (sqrt_pos (sqlen (p0, p1, p2))) as Hp.
  set (n := sqrt (sqlen (p0, p1, p2))) in *.
  assert (Hi : 0 < / k) by (apply Rinv_0_lt_compat; lra).
  apply sqrt_lem_1.
  - apply sqlen_nonneg.
  - unfold Rdiv. nra.
  - unfold sqlen in *. cbn [fst snd] in *.
    transitivity (n * n / (k * k)); [field; lra | rewrite Hq; field; lra].
Qed.

(** A uniform scale by [k > 0] of the sphere of radius [r] about the
    origin is the sphere of radius [r * k]. *)
Theorem scale_sphere (r k : R) (ps : list (R * R * R)) :
  0 < k ->
  call (scale (sphere (Fin r) ORIGIN) (inl (Fin k))) (fbatch ps)
  = call (sphere (Fin (r * k)) ORIGIN) (fbatch ps).
Proof.
  intros Hk. unfold scale. rewrite pymin_same.
  unfold sphere, fbatch, _length. unfold call, SDF3_init. cbn [f].
  rewrite !List.map_map. apply List.map_ext. intros p.
  rewrite vdiv_fin by lra. change ORIGIN with (fvec (0, 0, 0)).
  rewrite !vsub_fin, !norm_fin.
  assert (Hz : forall q, rsub q (0, 0, 0) = q).
  { intros [[q0 q1] q2]. cbn. vec_eq; ring. }
  rewrite !Hz, (len_div p k Hk). cbn. f_equal. field. lra.
Qed.

Lemma scale_sphere_witness :
  call (scale (sphere (Fin 2) ORIGIN) (inl (Fin 3))) (fbatch [(3, 0, 4)])
  = call (sphere (Fin (2 * 3)) ORIGIN) (fbatch [(3, 0, 4)]).
Proof. apply (scale_sphere 2 3 [(3, 0, 4)]). lra. Defined.

(** Two uniform scales by non-zero factors compose into the scale by the
    product, for every wrapped field. *)
Theorem scale_compose (A : SDF3) (k1 k2 : R) (ps : list (R * R * R)) :
  k1 <> 0 -> k2 <> 0 ->
  call (scale (scale A (inl (Fin k1))) (inl (Fin k2))) (fbatch ps)
  = call (scale A (inl (Fin (k1 * k2)))) (fbatch ps).
Proof.
  intros H1 H2. unfold scale. rewrite !pymin_same.
  unfold fbatch. unfold call, SDF3_init. cbn [f].
  rewrite !List.map_map.
  assert (Hp : map (fun x => vdiv (vdiv (fvec x) (Fin k2, Fin k2, Fin k2))
                                  (Fin k1, Fin k1, Fin k1)) ps
               = map (fun x => vdiv (fvec x) (Fin (k1 * k2), Fin (k1 * k2), Fin (k1 * k2))) ps).
  { apply List.map_ext. intros [[p0 p1] p2].
    rewrite !vdiv_fin by (try assumption; apply Rmult_integral_contrapositive; auto).
    cbn [fst snd]. f_equal. vec_eq; field; auto. }
  rewrite Hp. apply List.map_ext. intros [d |]; [| reflexivity].
  cbn. f_equal. ring.
Qed.

Lemma scale_compose_witness :
  call (scale (scale (sphere (Fin 1) X) (inl (Fin 2))) (inl (Fin 3))) (fbatch [(3, 0, 4)])
  = call (scale (sphere (Fin 1) X) (inl (Fin (2 * 3)))) (fbatch [(3, 0, 4)]).
Proof. apply (scale_compose (sphere (Fin 1) X) 2 3 [(3, 0, 4)]); lra. Defined.

End Scale.

(** ** Twisting and bending *)

Section Twist.
Local Open Scope R_scope.

Lemma twist_call (A : SDF3) (k : R) (ps : list (R * R * R)) :
  call (twist A (Fin k)) (fbatch ps) = call A (fbatch (map (twist_row k) ps)).
Proof.
  unfold twist, fbatch, col0, col1, col2. unfold call at 1, SDF3_init. cbn [f]. cbv zeta.
  rewrite !List.map_map, !zip_with_map, !_vec_map.
  f_equal; apply List.map_ext; intros [[x y] z]; reflexivity.
Qed.

(** Two twists compose into the twist by the sum of the rates, and the
    twist by 0 is the identity. *)
Theorem twist_compose (A : SDF3) (k1 k2 : R) (ps : list (R * R * R)) :
  call (twist (twist A (Fin k1)) (Fin k2)) (fbatch ps)
  = call (twist A (Fin (k1 + k2))) (fbatch ps) /\
  call (twist A (Fin 0)) (fbatch ps) = call A (fbatch ps).
Proof.
  rewrite !twist_call. split; f_equal.
  - rewrite List.map_map. f_equal. apply List.map_ext. intros [[x y] z].
    unfold twist_row. cbn [fst snd].
    rewrite Rmult_plus_distr_r, cos_plus, sin_plus. vec_eq; ring.
  - rewrite <- (List.map_id ps) at 2. f_equal. apply List.map_ext. intros [[x y] z].
    unfold twist_row. cbn [fst snd]. rewrite Rmult_0_l, cos_0, sin_0. vec_eq; ring.
Qed.

(** The bend by 0 is the identity. *)
Theorem bend_zero (A : SDF3) (ps : list (R * R * R)) :
  call (bend A (Fin 0)) (fbatch ps) = call A (fbatch ps).
Proof.
  unfold bend, fbatch, col0, col1, col2. unfold call at 1, SDF3_init. cbn [f]. cbv zeta.
  rewrite !List.map_map, !zip_with_map, !_vec_map. f_equal.
  apply List.map_ext. intros [[x y] z]. unfold fvec. cbn.
  rewrite Rmult_0_l, cos_0, sin_0. vec_eq; ring.
Qed.

End Twist.

(** ** Boxes *)

Section Box.
Local Open Scope R_scope.

Lemma box_row_fin (size center p : R * R * R) :
  box_row (fvec size) (fvec center) (fvec p) = Fin (box_distance size center p).
Proof.
  destruct size as [[s0 s1] s2], center as [[c0 c1] c2], p as [[p0 p1] p2].
  unfold box_row, fvec, vsub, vabs, vzip, vmap. cbn [fst snd].
  rewrite !div_fin by lra.
  cbv [amax norm Num.abs Num.sub Num.add Num.mul Num.maximum Num.minimum
       Num.lift1 Num.lift2].
  rewrite sqrt_fin; [reflexivity |].
  repeat apply Rplus_le_le_0_compat; apply Rle_0_sqr.
Qed.

Lemma box_call (size center : vec) (p : batch) :
  call (box size center) p = map (box_row size center) p.
Proof.
  unfold box, _length. unfold call, SDF3_init. cbn [f]. cbv zeta.
  rewrite !List.map_map, zip_with_map. reflexivity.
Qed.

Lemma box_distance_sign (size center p : R * R * R) :
  box_distance size center p <= 0 <-> in_box size center p.
Proof.
  destruct size as [[s0 s1] s2], center as [[c0 c1] c2], p as [[p0 p1] p2].
  unfold box_distance, in_box. cbn [fst snd].
  set (q0 := Rabs (p0 - c0) - s0 / 2). set (q1 := Rabs (p1 - c1) - s1 / 2).
  set (q2 := Rabs (p2 - c2) - s2 / 2).
  assert (Hq : (q0 <= 0 /\ q1 <= 0 /\ q2 <= 0)
               <-> (Rabs (p0 - c0) <= s0 / 2 /\ Rabs (p1 - c1) <= s1 / 2
                    /\ Rabs (p2 - c2) <= s2 / 2)) by (unfold q0, q1, q2; lra).
  rewrite <- Hq. clear Hq.
  set (S := Rmax q0 0 * Rmax q0 0 + Rmax q1 0 * Rmax q1 0 + Rmax q2 0 * Rmax q2 0).
  pose proof (Rmax_l q0 0) as A0. pose proof (Rmax_r q0 0) as B0.
  pose proof (Rmax_l q1 0) as A1. pose proof (Rmax_r q1 0) as B1.
  pose proof (Rmax_l q2 0) as A2. pose proof (Rmax_r q2 0) as B2.
  assert (HS : 0 <= S) by (unfold S; nra).
  pose proof (sqrt_pos S) as Hs.
  split.
  - intros Hd.
    destruct (Rle_dec (Rmax (Rmax q0 q1) q2) 0) as [Hm | Hm].
    + pose proof (Rmax_l (Rmax q0 q1) q2). pose proof (Rmax_r (Rmax q0 q1) q2).
      pose proof (Rmax_l q0 q1). pose proof (Rmax_r q0 q1). lra.
    + exfalso. rewrite Rmin_right in Hd by lra.
      assert (Hz : sqrt S = 0) by lra.
      apply sqrt_eq_0 in Hz; [| exact HS].
      assert (Rmax q0 0 = 0 /\ Rmax q1 0 = 0 /\ Rmax q2 0 = 0) as (E0 & E1 & E2)
          by (unfold S in Hz; repeat split; nra).
      apply Hm. apply Rmax_lub; [apply Rmax_lub |]; lra.
  - intros (H0 & H1 & H2).
    assert (E : S = 0).
    { unfold S. rewrite !Rmax_right by lra. ring. }
    rewrite E, sqrt_0.
    assert (Hm : Rmax (Rmax q0 q1) q2 <= 0) by (apply Rmax_lub; [apply Rmax_lub |]; lra).
    rewrite Rmin_left by lra. lra.
Qed.

Lemma box_finite (size center : R * R * R) (ps : list (R * R * R)) :
  call (box (fvec size) (fvec center)) (fbatch ps)
  = map (fun p => Fin (box_distance size center p)) ps.
Proof.
  rewrite box_call. unfold fbatch. rewrite List.map_map.
  apply List.map_ext. intros p. apply box_row_fin.
Qed.

(** [box(size, center)] is negative or zero exactly on the closed box:
    a finite point has a distance [<= 0] if and only if each coordinate
    is within half the side of the centre. *)
Theorem box_inside (size center : R * R * R) (ps : list (R * R * R)) :
  call (box (fvec size) (fvec center)) (fbatch ps)
  = map (fun p => Fin (box_distance size center p)) ps /\
  forall p, box_distance size center p <= 0 <-> in_box size center p.
Proof.
  split; [apply box_finite | apply box_distance_sign].
Qed.

Lemma between_in_box (a b p : R * R * R) :
  in_box (rsub b a) (radd a (rscale (/ 2) (rsub b a))) p <-> between a b p.
Proof.
  destruct a as [[a0 a1] a2], b as [[b0 b1] b2], p as [[p0 p1] p2].
  unfold in_box, between. cbn.
  assert (H : forall x lo hi, Rabs (x - (lo + / 2 * (hi - lo))) <= (hi - lo) / 2
                              <-> lo <= x <= hi).
  { intros x lo hi. unfold Rabs. destruct (Rcase_abs _); lra. }
  rewrite !H. reflexivity.
Qed.

(** [box(a=a, b=b)] is negative or zero exactly on the points that lie
    between the two corners. *)
Theorem box_corners_inside (a b : R * R * R) (ps : list (R * R * R)) :
  exists g : R * R * R -> R,
    call (box_corners (fvec a) (fvec b)) (fbatch ps) = map (fun p => Fin (g p)) ps /\
    forall p, g p <= 0 <-> between a b p.
Proof.
  exists (box_distance (rsub b a) (radd a (rscale (/ 2) (rsub b a)))). split.
  - unfold box_corners. cbv zeta. rewrite vsub_fin.
    assert (Hc : vadd (fvec a) (vmap (fun c => Num.div c (Fin 2)) (fvec (rsub b a)))
                 = fvec (radd a (rscale (/ 2) (rsub b a)))).
    { destruct a as [[a0 a1] a2], b as [[b0 b1] b2]. unfold fvec, vmap, vadd, vzip.
      cbn [fst snd rsub]. rewrite !div_fin by lra. cbn. vec_eq; field. }
    rewrite Hc. unfold call at 1, SDF3_init. cbn [f].
    apply box_finite.
  - intros p. rewrite box_distance_sign. apply between_in_box.
Qed.

End Box.

(** ** Periodic surfaces are clipped to their box *)

Section Periodic.
Local Open Scope R_scope.

Lemma box_distance_outside (size center p : R * R * R) :
  ~ in_box size center p -> 0 < box_distance size center p.
Proof.
  intros H. destruct (Rle_dec (box_distance size center p) 0) as [Hd | Hd]; [| lra].
  exfalso. apply H. now apply box_distance_sign.
Qed.

(** [gyroid] and [schwarzP] are the maximum of the shell and the distance
    to the box of the given size: at every finite point outside that box
    their value is positive, whatever the thickness and the level. *)
Theorem periodic_surfaces_clipped (thickness topology : R) (size center : R * R * R) :
  exists g s : R * R * R -> R,
    (forall ps, call (gyroid (Fin thickness) (Fin topology) (fvec size) (fvec center))
                     (fbatch ps) = map (fun p => Fin (g p)) ps) /\
    (forall ps, call (schwarzP (Fin thickness) (Fin topology) (fvec size) (fvec center))
                     (fbatch ps) = map (fun p => Fin (s p)) ps) /\
    (forall p, box_distance size center p <= g p /\ box_distance size center p <= s p) /\
    (forall p, ~ in_box size center p -> 0 < g p /\ 0 < s p).
Proof.
  exists (fun p => Rmax (Rabs (cos p.1.1 * sin p.1.2 + cos p.1.2 * sin p.2
                               + cos p.2 * sin p.1.1 - topology) - thickness)
                        (box_distance size center p)),
         (fun p => Rmax (Rabs (cos p.1.1 + cos p.1.2 + cos p.2 - topology) - thickness)
                        (box_distance size center p)).
  split; [| split; [| split]].
  - intros ps. unfold gyroid, fbatch, col0, col1, col2, _max.
    unfold call, SDF3_init. cbn [f]. cbv zeta.
    rewrite !List.map_map, !zip_with_map, !List.map_map, zip_with_map.
    apply List.map_ext. intros [[x y] z]. rewrite box_row_fin. reflexivity.
  - intros ps. unfold schwarzP, fbatch, col0, col1, col2, _max.
    unfold call, SDF3_init. cbn [f]. cbv zeta.
    rewrite !List.map_map, !zip_with_map, !List.map_map, zip_with_map.
    apply List.map_ext. intros [[x y] z]. rewrite box_row_fin. reflexivity.
  - intros p. split; apply Rmax_r.
  - intros p Hp. pose proof (box_distance_outside _ _ _ Hp) as Hb.
    split; eapply Rlt_le_trans; try exact Hb; apply Rmax_r.
Qed.

End Periodic.

(** ** The octahedron and the sphere *)

Section OctahedronSphere.
Local Open Scope R_scope.

Lemma tan_30_degrees : 0 < tan (30 * (PI / 180)).
Proof.
  replace (30 * (PI / 180)) with (PI / 6) by field.
  rewrite tan_PI6. apply Rdiv_lt_0_compat; [lra | apply sqrt_lt_R0; lra].
Qed.

(** [octahedron(r)] is [(|x| + |y| + |z| - r) * tan(30 degrees)]: it is
    negative or zero exactly where the sum of the absolute coordinates
    is at most [r], and zero exactly where it equals [r]. *)
Theorem octahedron_inside (r : R) (ps : list (R * R * R)) :
  call (octahedron (Fin r)) (fbatch ps)
  = map (fun p => Fin ((l1 p - r) * tan (30 * (PI / 180)))) ps /\
  forall p, ((l1 p - r) * tan (30 * (PI / 180)) <= 0 <-> l1 p <= r) /\
            ((l1 p - r) * tan (30 * (PI / 180)) = 0 <-> l1 p = r).
Proof.
  pose proof tan_30_degrees as Ht. split.
  - unfold octahedron, fbatch. unfold call, SDF3_init. cbn [f].
    rewrite List.map_map. apply List.map_ext. intros [[x y] z].
    rewrite (div_fin PI 180) by lra. reflexivity.
  - intros p. set (t := tan (30 * (PI / 180))) in *. split; split; intros H; nra.
Qed.

(** [sphere(r, c)] at the point at distance [t >= 0] from [c], in any
    direction, is [t - r]: [-r] at the centre, 0 on the surface. *)
Theorem sphere_distance (r t : R) (c v : R * R * R) :
  v <> (0, 0, 0) -> 0 <= t ->
  call (sphere (Fin r) (fvec c)) (fbatch [radd c (rscale t (unitv v))]) = [Fin (t - r)].
Proof.
  intros Hv Ht. pose proof (unit_sqlen v Hv) as Hu.
  unfold sphere, fbatch, _length. unfold call, SDF3_init. cbn [f map].
  rewrite vsub_fin, norm_fin. cbn. do 2 f_equal.
  destruct (unitv v) as [[u0 u1] u2], c as [[c0 c1] c2].
  unfold len, sqlen in *. cbn [fst snd radd rscale rsub] in *.
  f_equal. apply sqrt_lem_1; [nra | exact Ht |].
  transitivity (t * t * (u0 * u0 + u1 * u1 + u2 * u2)); [rewrite Hu; ring | ring].
Qed.

Lemma sphere_distance_witness :
  call (sphere (Fin 2) (fvec (1, 1, 1))) (fbatch [radd (1, 1, 1) (rscale 0 (unitv (0, 3, 4)))])
  = [Fin (0 - 2)].
Proof.
  apply (sphere_distance 2 0 (1, 1, 1) (0, 3, 4)); [intros H; inversion H; lra | lra].
Defined.

End OctahedronSphere.

(** ** The capsule *)

Section Capsule.
Local Open Scope R_scope.

Lemma div_by_zero (a : num) (y : R) : y = 0 -> Num.div a (Fin y) = NaN.
Proof.
  intros ->. destruct a as [x |]; [| reflexivity].
  unfold Num.div. destruct (Req_dec_T 0 0); [reflexivity | congruence].
Qed.

(** A capsule whose two end points coincide divides by the zero length of
    its axis: it evaluates to nan at every point, and raises nothing. *)
Theorem capsule_degenerate (a : R * R * R) (radius : num) (ps : list (R * R * R)) :
  call (capsule (fvec a) (fvec a) radius) (fbatch ps) = map (fun _ => NaN) ps.
Proof.
  unfold capsule, fbatch, _length. unfold call, SDF3_init. cbn [f]. cbv zeta.
  rewrite !List.map_map.
  rewrite <- (List.map_id ps) at 1. rewrite List.map_map, zip_with_map, List.map_map.
  apply List.map_ext. intros p.
  rewrite !vsub_fin, !dot_fin, div_by_zero.
  - destruct (rsub a a) as [[b0 b1] b2], (rsub p a) as [[q0 q1] q2]. reflexivity.
  - destruct a as [[a0 a1] a2]. cbn. ring.
Qed.

(** On the segment between two distinct end points the capsule has the
    distance [-radius]. *)
Theorem capsule_axis (a b : R * R * R) (radius t : R) :
  a <> b -> 0 <= t <= 1 ->
  call (capsule (fvec a) (fvec b) (Fin radius))
       (fbatch [radd a (rscale t (rsub b a))])
  = [Fin (- radius)].
Proof.
  intros Hab Ht.
  assert (Hba : rsub b a <> (0, 0, 0)).
  { destruct a as [[a0 a1] a2], b as [[b0 b1] b2]. cbn. intros H.
    injection H as H0 H1 H2. apply Hab. vec_eq; lra. }
  pose proof (sqlen_pos _ Hba) as Hs.
  unfold capsule, fbatch, _length. unfold call, SDF3_init. cbn [f map zip_with].
  rewrite !vsub_fin, !dot_fin.
  assert (Hd : rdot (rsub b a) (rsub b a) = sqlen (rsub b a)).
  { destruct (rsub b a) as [[d0 d1] d2]. reflexivity. }
  rewrite div_fin by (rewrite Hd; lra).
  assert (Hq : rdot (rsub (radd a (rscale t (rsub b a))) a) (rsub b a)
               / rdot (rsub b a) (rsub b a) = t).
  { rewrite Hd. destruct a as [[a0 a1] a2], b as [[b0 b1] b2].
    unfold sqlen in *. cbn in *. field. lra. }
  rewrite Hq.
  assert (Hc : Num.clip (Fin t) (Fin 0) (Fin 1) = Fin t).
  { cbn. rewrite Rmax_left, Rmin_left by lra. reflexivity. }
  rewrite Hc.
  destruct a as [[a0 a1] a2], b as [[b0 b1] b2].
  cbv [rsub radd rscale fvec vscale vmap vsub vzip norm fst snd
       Num.mul Num.sub Num.add Num.lift2].
  rewrite sqrt_fin by nra. do 2 f_equal.
  match goal with |- sqrt ?e - _ = _ => replace e with 0 by ring end.
  rewrite sqrt_0. ring.
Qed.

Lemma capsule_axis_witness :
  call (capsule (fvec (0, 0, 0)) (fvec (0, 0, 2)) (Fin 1))
       (fbatch [radd (0, 0, 0) (rscale (/ 2) (rsub (0, 0, 2) (0, 0, 0)))])
  = [Fin (- 1)].
Proof.
  apply (capsule_axis (0, 0, 0) (0, 0, 2) 1 (/ 2)); [intros H; inversion H; lra | lra].
Defined.

End Capsule.

(** ** The ellipsoid *)

Section Ellipsoid.
Local Open Scope R_scope.

(** At its centre the ellipsoid divides 0 by 0: the value there is nan,
    for every size. *)
Theorem ellipsoid_center (size : R * R * R) :
  call (ellipsoid (fvec size)) (fbatch [(0, 0, 0)]) = [NaN].
Proof.
  destruct size as [[s0 s1] s2].
  unfold ellipsoid, fbatch, _length. unfold call, SDF3_init. cbn [f map zip_with].
  cbv [fvec vdiv vmul vzip norm fst snd Num.mul Num.add Num.sub Num.div Num.sqrt
       Num.lift2].
  repeat match goal with
         | |- context [Req_dec_T ?a ?b] => destruct (Req_dec_T a b)
         | |- context [Rlt_dec ?a ?b] => destruct (Rlt_dec a b)
         end; try reflexivity.
  exfalso.
  match goal with
  | n : sqrt ?e <> 0 |- _ =>
      apply n; replace e with 0 by (unfold Rdiv; ring); apply sqrt_0
  end.
Qed.

(** On the surface [(x/a)^2 + (y/b)^2 + (z/c)^2 = 1] of an ellipsoid with
    non-zero semi-axes the value is 0. *)
Theorem ellipsoid_surface (size p : R * R * R) :
  size.1.1 <> 0 -> size.1.2 <> 0 -> size.2 <> 0 ->
  (p.1.1 / size.1.1) * (p.1.1 / size.1.1) + (p.1.2 / size.1.2) * (p.1.2 / size.1.2)
  + (p.2 / size.2) * (p.2 / size.2) = 1 ->
  call (ellipsoid (fvec size)) (fbatch [p]) = [Fin 0].
Proof.
  destruct size as [[s0 s1] s2], p as [[x y] z]. cbn [fst snd].
  intros H0 H1 H2 Hp.
  unfold ellipsoid, fbatch, _length. unfold call, SDF3_init. cbn [f map zip_with].
  unfold fvec, vmul, vdiv, vzip. cbn [fst snd Num.mul Num.lift2].
  assert (H00 : s0 * s0 <> 0) by nra. assert (H11 : s1 * s1 <> 0) by nra.
  assert (H22 : s2 * s2 <> 0) by nra.
  rewrite !div_fin by assumption.
  cbv [norm Num.mul Num.add Num.sub Num.lift2].
  rewrite Hp, !sqrt_fin, sqrt_1; [| nra | lra].
  set (E := x / (s0 * s0) * (x / (s0 * s0)) + y / (s1 * s1) * (y / (s1 * s1))
            + z / (s2 * s2) * (z / (s2 * s2))).
  assert (HE : 0 < E).
  { assert (Hn : 0 <= E) by (unfold E; nra).
    destruct (Req_dec_T E 0) as [Ez | Ez]; [| lra]. exfalso.
    assert (Hx : x / (s0 * s0) = 0) by (unfold E in Ez; nra).
    assert (Hy : y / (s1 * s1) = 0) by (unfold E in Ez; nra).
    assert (Hz : z / (s2 * s2) = 0) by (unfold E in Ez; nra).
    assert (Hx' : x / s0 = 0).
    { replace (x / s0) with (x / (s0 * s0) * s0) by (field; lra). rewrite Hx. ring. }
    assert (Hy' : y / s1 = 0).
    { replace (y / s1) with (y / (s1 * s1) * s1) by (field; lra). rewrite Hy. ring. }
    assert (Hz' : z / s2 = 0).
    { replace (z / s2) with (z / (s2 * s2) * s2) by (field; lra). rewrite Hz. ring. }
    rewrite Hx', Hy', Hz' in Hp. lra. }
  pose proof (sqrt_lt_R0 E HE) as Hs.
  rewrite div_fin by lra. do 2 f_equal. field. lra.
Qed.

Lemma ellipsoid_surface_witness :
  call (ellipsoid (fvec (2, 3, 4))) (fbatch [(0, 3, 0)]) = [Fin 0].
Proof.
  apply (ellipsoid_surface (2, 3, 4) (0, 3, 0)); cbn; lra.
Defined.

End Ellipsoid.

(** ** Elongation *)

Section Elongate.
Local Open Scope R_scope.

(** Inside the core box of half-sides [size], [elongate] evaluates the
    wrapped field at the origin and adds the largest (negative or zero)
    of the coordinates' margins; the shape of the wrapped field is
    stretched, not moved. *)
Theorem elongate_core (A : SDF3) (size p : R * R * R) :
  Rabs p.1.1 <= size.1.1 -> Rabs p.1.2 <= size.1.2 -> Rabs p.2 <= size.2 ->
  call (elongate A (fvec size)) (fbatch [p])
  = zip_with Num.add (call A (fbatch [(0, 0, 0)]))
      [Fin (Rmax (Rabs p.1.1 - size.1.1)
                 (Rmax (Rabs p.1.2 - size.1.2) (Rabs p.2 - size.2)))].
Proof.
  destruct size as [[s0 s1] s2], p as [[x y] z]. cbn [fst snd]. intros H0 H1 H2.
  unfold elongate, fbatch, col0, col1, col2, _max. unfold call at 1, SDF3_init.
  cbn [f map zip_with].
  cbv [fvec vabs vsub vzip vmap fst snd Num.abs Num.sub Num.maximum Num.minimum
       Num.lift1 Num.lift2].
  rewrite !(Rmax_right _ 0) by lra.
  assert (Hm : Rmax (Rabs x - s0) (Rmax (Rabs y - s1) (Rabs z - s2)) <= 0)
    by (apply Rmax_lub; [| apply Rmax_lub]; lra).
  rewrite Rmin_left by exact Hm. reflexivity.
Qed.

Lemma elongate_core_witness :
  call (elongate (sphere (Fin 1) ORIGIN) (fvec (2, 2, 2))) (fbatch [(1, -1, 0)])
  = zip_with Num.add (call (sphere (Fin 1) ORIGIN) (fbatch [(0, 0, 0)]))
      [Fin (Rmax (Rabs 1 - 2) (Rmax (Rabs (-1) - 2) (Rabs 0 - 2)))].
Proof.
  apply (elongate_core (sphere (Fin 1) ORIGIN) (2, 2, 2) (1, -1, 0)); cbn;
    unfold Rabs; destruct (Rcase_abs _); lra.
Defined.

End Elongate.

(** ** The radius of the dodecahedron and the icosahedron is a scale *)

Section SolidScale.
Local Open Scope R_scope.

Lemma mul_one (a : num) : Num.mul a (Fin 1) = a.
Proof. destruct a as [x |]; [| reflexivity]. cbn. f_equal. ring. Qed.

Lemma scaled_row (r k : R) (p : R * R * R) :
  0 < r -> 0 < k ->
  vabs (vmap (fun c => Num.div c (Fin (r * k))) (fvec (rscale r p)))
  = vabs (vmap (fun c => Num.div c (Fin (1 * k))) (fvec p)).
Proof.
  intros Hr Hk. destruct p as [[x y] z].
  unfold fvec, rscale. cbn [fst snd]. cbv [vabs vmap].
  rewrite !div_fin by nra. cbv [Num.abs Num.lift1].
  vec_eq; f_equal; field; lra.
Qed.

(** Unlike the tetrahedron, [dodecahedron] and [icosahedron] scale with
    their radius: the field of radius [r > 0] at [r * p] is [r] times the
    field of radius 1 at [p]. *)
Theorem solids_scale_with_radius (r : R) (ps : list (R * R * R)) :
  0 < r ->
  call (dodecahedron (Fin r)) (fbatch (map (rscale r) ps))
  = map (fun d => Num.mul d (Fin r)) (call (dodecahedron (Fin 1)) (fbatch ps)) /\
  call (icosahedron (Fin r)) (fbatch (map (rscale r) ps))
  = map (fun d => Num.mul d (Fin r)) (call (icosahedron (Fin 1)) (fbatch ps)).
Proof.
  intros Hr. split.
  - unfold dodecahedron.
    destruct (_normalize _) as [[x y] z].
    unfold fbatch, _max. unfold call, SDF3_init. cbn [f]. cbv zeta.
    rewrite !List.map_map, !zip_with_map, !List.map_map.
    apply List.map_ext. intros p.
    pose proof (scaled_row r 1 p Hr Rlt_0_1) as H.
    rewrite !Rmult_1_r in H. rewrite H.
    now rewrite mul_one.
  - unfold icosahedron.
    destruct (_normalize _) as [[x y] z].
    change (Fin r * Fin 0.8506507174597755)%num with (Fin (r * 0.8506507174597755)).
    change (Fin 1 * Fin 0.8506507174597755)%num with (Fin (1 * 0.8506507174597755)).
    unfold fbatch, _max. unfold call, SDF3_init. cbn [f]. cbv zeta.
    rewrite !List.map_map, !zip_with_map, !List.map_map, !zip_with_map, !List.map_map.
    apply List.map_ext. intros p.
    rewrite (scaled_row r 0.8506507174597755 p Hr) by lra.
    set (m := Num.maximum _ _). destruct m as [d |]; [| reflexivity].
    cbn. f_equal. ring.
Qed.

Lemma solids_scale_with_radius_witness :
  call (dodecahedron (Fin 2)) (fbatch (map (rscale 2) [(1, 2, 3)]))
  = map (fun d => Num.mul d (Fin 2)) (call (dodecahedron (Fin 1)) (fbatch [(1, 2, 3)])) /\
  call (icosahedron (Fin 2)) (fbatch (map (rscale 2) [(1, 2, 3)]))
  = map (fun d => Num.mul d (Fin 2)) (call (icosahedron (Fin 1)) (fbatch [(1, 2, 3)])).
Proof. apply (solids_scale_with_radius 2 [(1, 2, 3)]). lra. Defined.

End SolidScale.

(** ** Registration *)

Section Register.

(** What [op3] registers is what a Field finds: after the registration of
    a wrapper under a name (no attribute of the Field itself), access to
    that name gives the partial application of that wrapper to the Field,
    access to every other name is as before, and a second registration
    under the same name replaces the first. *)
Theorem register_getattr (_ops : gmap string operator) (name : string)
    (w : operator) (self : SDF3) :
  instance_attribute self name = None ->
  name ∉ methods ->
  getattr (register name w _ops) self name = inr (AOperator (mk_partial w [VField self])) /\
  (forall other, other <> name ->
     getattr (register name w _ops) self other = getattr _ops self other) /\
  (forall w', register name w' (register name w _ops) = register name w' _ops).
Proof.
  intros Hi Hm. unfold register. split; [| split].
  - unfold getattr. rewrite Hi.
    destruct (decide (name ∈ methods)) as [Hin | _]; [contradiction |].
    unfold __getattr__. now rewrite lookup_insert_eq.
  - intros other Hne. unfold getattr, __getattr__.
    now rewrite lookup_insert_ne by congruence.
  - intros w'. apply insert_insert_eq.
Qed.

Lemma register_getattr_witness :
  getattr (register "translate" translate_op ∅) (sphere (Fin 1) ORIGIN) "translate"
  = inr (AOperator (mk_partial translate_op [VField (sphere (Fin 1) ORIGIN)])) /\
  (forall other, other <> "translate"%string ->
     getattr (register "translate" translate_op ∅) (sphere (Fin 1) ORIGIN) other
     = getattr ∅ (sphere (Fin 1) ORIGIN) other) /\
  (forall w', register "translate" w' (register "translate" translate_op ∅)
              = register "translate" w' ∅).
Proof.
  apply (register_getattr ∅ "translate" translate_op (sphere (Fin 1) ORIGIN)).
  - reflexivity.
  - intros H. repeat (apply elem_of_cons in H as [H | H]; [discriminate |]).
    apply elem_of_nil in H. exact H.
Defined.

End Register.

(** ** Transitions *)

Section Transition.
Local Open Scope R_scope.

Lemma mix_between (t d1 d2 : R) :
  0 <= t <= 1 -> Rmin d1 d2 <= t * d2 + (1 - t) * d1 <= Rmax d1 d2.
Proof.
  intros Ht. destruct (Rle_dec d1 d2) as [H | H].
  - rewrite Rmin_left, Rmax_right by lra. split; nra.
  - rewrite Rmin_right, Rmax_left by lra. split; nra.
Qed.

Lemma transition_rows (ws : list R) (ds1 ds2 : list R) :
  zip_with Num.add
    (zip_with Num.mul (map Fin ws) (map Fin ds2))
    (zip_with Num.mul (map (fun ti => Num.sub (Fin 1) ti) (map Fin ws)) (map Fin ds1))
  = map Fin (zip_with (fun td d1 => td.1 * td.2 + (1 - td.1) * d1)
               (zip_with pair ws ds2) ds1).
Proof.
  revert ds1 ds2. induction ws as [| w ws IH]; intros ds1 ds2; [reflexivity |].
  destruct ds2 as [| d2 ds2]; [reflexivity |].
  destruct ds1 as [| d1 ds1]; [reflexivity |].
  cbn. f_equal. apply IH.
Qed.

(** [transition_linear] mixes the two fields point by point with a weight
    in [0, 1]: for distinct end points, an easing function that acts
    element by element and keeps [0, 1], and two fields with finite
    values on the batch, every value of the transition lies between the
    values of the two fields at that point. *)
Theorem transition_linear_between (f0 f1 : SDF3) (p0 p1 : R * R * R)
    (e : list num -> list num) (e' : R -> R)
    (ps : list (R * R * R)) (ds1 ds2 : list R) :
  p0 <> p1 ->
  (forall ts, e (map Fin ts) = map (fun t => Fin (e' t)) ts) ->
  (forall t, 0 <= t <= 1 -> 0 <= e' t <= 1) ->
  call f0 (fbatch ps) = map Fin ds1 ->
  call f1 (fbatch ps) = map Fin ds2 ->
  exists rs,
    call (transition_linear f0 f1 (fvec p0) (fvec p1) e) (fbatch ps) = map Fin rs /\
    forall i d1 d2 r,
      ds1 !! i = Some d1 -> ds2 !! i = Some d2 -> rs !! i = Some r ->
      Rmin d1 d2 <= r <= Rmax d1 d2.
Proof.
  intros Hp He He01 H0 H1.
  assert (Hab : rsub p1 p0 <> (0, 0, 0)).
  { destruct p0 as [[a0 a1] a2], p1 as [[b0 b1] b2]. cbn. intros H.
    injection H as Ha Hb Hc. apply Hp. vec_eq; lra. }
  pose proof (sqlen_pos _ Hab) as Hs.
  assert (Hd : rdot (rsub p1 p0) (rsub p1 p0) = sqlen (rsub p1 p0)).
  { destruct (rsub p1 p0) as [[d0 d1] d2]. reflexivity. }
  set (tau := fun p => Rmin (Rmax (rdot (rsub p p0) (rsub p1 p0)
                                   / rdot (rsub p1 p0) (rsub p1 p0)) 0) 1).
  assert (Ht : map (fun r => Num.clip (Num.div (dot (vsub r (fvec p0)) (vsub (fvec p1) (fvec p0)))
                                         (dot (vsub (fvec p1) (fvec p0)) (vsub (fvec p1) (fvec p0))))
                                (Fin 0) (Fin 1)) (fbatch ps)
               = map Fin (map tau ps)).
  { unfold fbatch. rewrite !List.map_map. apply List.map_ext. intros p.
    rewrite !vsub_fin, !dot_fin, div_fin by (rewrite Hd; lra). reflexivity. }
  exists (zip_with (fun td d1 => td.1 * td.2 + (1 - td.1) * d1)
            (zip_with pair (map e' (map tau ps)) ds2) ds1).
  split.
  - unfold transition_linear. unfold call at 1, SDF3_init. cbn [f]. cbv zeta.
    rewrite H0, H1, Ht, He.
    rewrite <- (List.map_map e' Fin). apply transition_rows.
  - intros i d1 d2 r Hi1 Hi2 Hr.
    apply lookup_zip_with_Some in Hr. destruct Hr as ([w d] & d1' & -> & Hwd & Hd1).
    apply lookup_zip_with_Some in Hwd. destruct Hwd as (w' & d' & Hpair & Hw & Hd2).
    injection Hpair as <- <-.
    assert (d1' = d1) by congruence. assert (d = d2) by congruence. subst d1' d.
    cbn [fst snd]. apply mix_between.
    rewrite List.map_map in Hw.
    apply list_lookup_fmap_Some in Hw. destruct Hw as (p & -> & Hpi).
    apply He01. unfold tau. split.
    + apply Rmin_glb; [apply Rmax_r | lra].
    + apply Rmin_r.
Qed.

Lemma transition_linear_between_witness :
  exists rs,
    call (transition_linear (SDF3_init (map (fun _ => Fin 1)))
                            (SDF3_init (map (fun _ => Fin 3)))
                            (fvec (0, 0, -1)) (fvec (0, 0, 1)) (fun t => t))
         (fbatch [(0, 0, 0)]) = map Fin rs /\
    forall i d1 d2 r,
      [1] !! i = Some d1 -> [3] !! i = Some d2 -> rs !! i = Some r ->
      Rmin d1 d2 <= r <= Rmax d1 d2.
Proof.
  apply (transition_linear_between (SDF3_init (map (fun _ => Fin 1)))
           (SDF3_init (map (fun _ => Fin 3))) (0, 0, -1) (0, 0, 1)
           (fun t => t) (fun t => t) [(0, 0, 0)] [1] [3]).
  - intros H. inversion H. lra.
  - intros ts. reflexivity.
  - intros t Ht. exact Ht.
  - reflexivity.
  - reflexivity.
Defined.

End Transition.

(** ** What aligning does *)

Section Align.
Local Open Scope R_scope.








End Align.

(** ** The rounded box and the cylinder *)

Section RoundedBox.
Local Open Scope R_scope.

(** A rounded box is the box with every side shortened by twice the
    radius, moved outwards by the radius: its value is the value of
    [box] for that smaller size, minus the radius. *)
Theorem rounded_box_offset (size center : R * R * R) (radius : R) (ps : list (R * R * R)) :
  call (rounded_box (fvec size) (Fin radius) (fvec center)) (fbatch ps)
  = map (fun d => Num.sub d (Fin radius))
      (call (box (fvec (size.1.1 - 2 * radius, size.1.2 - 2 * radius,
                        size.2 - 2 * radius)) (fvec center)) (fbatch ps)).
Proof.
  destruct size as [[s0 s1] s2], center as [[c0 c1] c2].
  rewrite box_call.
  unfold rounded_box, fbatch, _length. unfold call, SDF3_init. cbn [f]. cbv zeta.
  rewrite !List.map_map, zip_with_map, !List.map_map.
  apply List.map_ext. intros [[x y] z].
  rewrite box_row_fin.
  unfold fvec, vsub, vabs, vzip, vmap. cbn [fst snd].
  rewrite !div_fin by lra.
  cbv [amax norm Num.abs Num.sub Num.add Num.mul Num.maximum Num.minimum
       Num.lift1 Num.lift2].
  rewrite sqrt_fin by (repeat apply Rplus_le_le_0_compat; apply Rle_0_sqr).
  f_equal. unfold box_distance. cbn [fst snd].
  replace (Rabs (x - c0) - (s0 - 2 * radius) / 2) with (Rabs (x - c0) - s0 / 2 + radius) by field.
  replace (Rabs (y - c1) - (s1 - 2 * radius) / 2) with (Rabs (y - c1) - s1 / 2 + radius) by field.
  replace (Rabs (z - c2) - (s2 - 2 * radius) / 2) with (Rabs (z - c2) - s2 / 2 + radius) by field.
  reflexivity.
Qed.

(** [cylinder(r)] with [r >= 0] is negative or zero exactly on the points
    whose distance to the z axis is at most [r], whatever their height. *)
Theorem cylinder_inside (r : R) (ps : list (R * R * R)) :
  0 <= r ->
  exists g : R * R * R -> R,
    call (cylinder (Fin r)) (fbatch ps) = map (fun p => Fin (g p)) ps /\
    forall p, g p <= 0 <-> p.1.1 * p.1.1 + p.1.2 * p.1.2 <= r * r.
Proof.
  intros Hr. exists (fun p => sqrt (p.1.1 * p.1.1 + p.1.2 * p.1.2) - r). split.
  - unfold cylinder, fbatch. unfold call, SDF3_init. cbn [f].
    rewrite List.map_map. apply List.map_ext. intros [[x y] z].
    unfold norm2, fvec. cbn [fst snd]. cbv [Num.mul Num.add Num.lift2].
    rewrite sqrt_fin by nra. reflexivity.
  - intros [[x y] z]. cbn [fst snd].
    assert (Hs : 0 <= x * x + y * y) by nra.
    pose proof (sqrt_pos (x * x + y * y)) as Hp.
    pose proof (sqrt_sqrt _ Hs) as Hq.
    set (n := sqrt (x * x + y * y)) in *. split; intros H; nra.
Qed.

Lemma cylinder_inside_witness :
  exists g : R * R * R -> R,
    call (cylinder (Fin 2)) (fbatch [(1, 1, 5)]) = map (fun p => Fin (g p)) [(1, 1, 5)] /\
    forall p, g p <= 0 <-> p.1.1 * p.1.1 + p.1.2 * p.1.2 <= 2 * 2.
Proof. apply (cylinder_inside 2 [(1, 1, 5)]). lra. Defined.

End RoundedBox.

(** ** Translation and the skin *)

Section TranslateSkin.
Local Open Scope R_scope.

(** Two translations compose into the translation by the sum of the
    offsets, and the sphere about the origin translated by [c] is the
    sphere with centre [c]. *)
Theorem translate_compose (A : SDF3) (a b : R * R * R) (r : num) (ps : list (R * R * R)) :
  call (translate (translate A (fvec a)) (fvec b)) (fbatch ps)
  = call (translate A (fvec (radd a b))) (fbatch ps) /\
  call (translate (sphere r ORIGIN) (fvec a)) (fbatch ps)
  = call (sphere r (fvec a)) (fbatch ps).
Proof.
  destruct a as [[a0 a1] a2], b as [[b0 b1] b2].
  unfold translate, sphere, fbatch, _length. unfold call, SDF3_init. cbn [f].
  rewrite !List.map_map. split.
  - f_equal. apply List.map_ext. intros [[x y] z].
    unfold fvec, radd, vsub, vzip. cbn [fst snd].
    cbv [Num.sub Num.lift2]. vec_eq; ring.
  - apply List.map_ext. intros [[x y] z].
    unfold fvec, ORIGIN, vsub, vzip, norm. cbn [fst snd].
    cbv [Num.sub Num.mul Num.add Num.lift2].
    replace (x - a0 - 0) with (x - a0) by ring.
    replace (y - a1 - 0) with (y - a1) by ring.
    replace (z - a2 - 0) with (z - a2) by ring. reflexivity.
Qed.

(** [skin] is never negative: where the wrapped field has the finite
    value [d], the skin of finite depth has the value [max(d - depth, 0)],
    which is 0 exactly where [d <= depth].  No point is inside a skin. *)
Theorem skin_nonnegative (A : SDF3) (depth : R) (p : batch) (ds : list R) :
  call A p = map Fin ds ->
  call (skin A (Fin depth)) p = map (fun d => Fin (Rmax (d - depth) 0)) ds /\
  forall d, 0 <= Rmax (d - depth) 0 /\ (Rmax (d - depth) 0 = 0 <-> d <= depth).
Proof.
  intros H. split.
  - unfold skin. unfold call at 1, SDF3_init. cbn [f].
    rewrite H, List.map_map. reflexivity.
  - intros d. unfold Rmax. destruct (Rle_dec (d - depth) 0); split; try lra; split; lra.
Qed.

Lemma skin_nonnegative_witness :
  call (skin (sphere (Fin 1) ORIGIN) (Fin 2)) (fbatch [(3, 4, 0)])
  = map (fun d => Fin (Rmax (d - 2) 0)) [4] /\
  forall d, 0 <= Rmax (d - 2) 0 /\ (Rmax (d - 2) 0 = 0 <-> d <= 2).
Proof.
  apply (skin_nonnegative (sphere (Fin 1) ORIGIN) 2 (fbatch [(3, 4, 0)]) [4]).
  unfold sphere, fbatch, _length. unfold call, SDF3_init. cbn.
  replace ((3 - 0) * (3 - 0) + (4 - 0) * (4 - 0) + (0 - 0) * (0 - 0)) with (5 * 5) by ring.
  destruct (Rlt_dec (5 * 5) 0) as [Hlt | _]; [lra |].
  rewrite sqrt_square by lra. cbv [Num.sub Num.lift2]. do 2 f_equal. lra.
Defined.

End TranslateSkin.
